(** * Earth model: position calculator and motion controller

    A shallow embedding of [earth.py] (event timelines and the conversion of a
    point in time into orbit and rotation degrees) and of [earth_model.py]
    (sensor homing and the stepping loop).

    Numbers.  Python floats (Julian dates, fractions, degrees) are modelled as
    exact rationals [Q]; comparisons are exact, arithmetic is without rounding.
    Python integers are [Z].  A Skyfield [Time] is represented by its [tt]
    Julian date, so [timescale.tt_jd] is the identity and the difference of
    two times is the difference of their dates. *)

From Stdlib Require Import String QArith ZArith List Bool Lia Lqa Qround Qabs Sorted.
From Stdlib Require PrimFloat.
Import ListNotations.

Open Scope Q_scope.

(** ** Small helpers shared by both modules *)

(** Strict comparison on [Q] as a boolean, the way [a < b] evaluates. *)
Definition Qltb (a b : Q) : bool := negb (Qle_bool b a).

(** [zip(l, l[1:])]: the consecutive pairs of a list. *)
Definition zip_next {A : Type} (l : list A) : list (A * A) := combine l (tl l).

(** Python truthiness of an integer or boolean value ([False] is [0],
    [True] is [1]). *)
Definition truthy (v : Z) : bool := negb (v =? 0)%Z.

(** [int(x)] on a float: truncation toward zero. *)
Definition int_of_Q (x : Q) : Z := Z.quot (Qnum x) (Zpos (Qden x)).

(** [x % y] on floats, for a positive [y]: the remainder of the floored
    division. *)
Definition Qmod (x y : Q) : Q := x - y * inject_Z (Qfloor (x / y)).

(** ** [earth.py]: event timelines and the position model *)

Module Earth.

Definition EVENT_VERNAL_EQUINOX : Z := 0.
Definition EVENT_SUMMER_SOLSTICE : Z := 1.
Definition EVENT_AUTUMNAL_EQUINOX : Z := 2.
Definition EVENT_WINTER_SOLSTICE : Z := 3.

(** [class Event]: an event value (a season code, or the rise flag of a
    sunrise/sunset event) and a label. *)
Record Event : Type := mkEvent { value : Z; label : string }.

(** [class EventTime]: an event and its time. *)
Record EventTime : Type := mkEventTime { event : Event; time : Q }.

(** [class EarthModel]. *)
Record EarthModel : Type :=
  mkEarthModel { orbit_degrees : Q; rotation_degrees : Q }.

(** [timescale.tt_jd]. *)
Definition tt_jd (jd : Q) : Q := jd.

(** [find_surrounding_events]: the first consecutive pair that straddles the
    time; falling out of the loop returns [None]. *)
Definition find_surrounding_events (events : list EventTime) (t : Q)
  : option (EventTime * EventTime) :=
  find (fun xy => Qltb (time (fst xy)) t && Qltb t (time (snd xy)))
       (zip_next events).

(** [relative_to_absolute_orbit_degrees]. *)
Definition relative_to_absolute_orbit_degrees (season : Z) (degrees : Q) : Q :=
  if (season =? EVENT_SUMMER_SOLSTICE)%Z then 180 - degrees
  else if (season =? EVENT_AUTUMNAL_EQUINOX)%Z then 90 - degrees
  else if (season =? EVENT_WINTER_SOLSTICE)%Z then degrees
  else 90 + degrees.

(** [position_as_percent].  On a zero range the source's float division
    gives inf or nan, which have no counterpart in [Q]: [None] stands for
    them.  The two callers never pass such a pair: they pass one that
    straddles the time. *)
Definition position_as_percent (events : EventTime * EventTime) (t : Q)
  : option Q :=
  let range := time (snd events) - time (fst events) in
  let position := t - time (fst events) in
  if Qeq_bool range 0 then None else Some (position / range).

Section Almanac.

(** The two almanac queries, [season_event_times] and [rise_set_event_times],
    wrap Skyfield's [almanac.find_discrete]; they are taken as given. *)
Variable season_event_times : Q -> Q -> list EventTime.
Variable rise_set_event_times : Q -> Q -> list EventTime.

(** The event appended to [result] for one pair [(x, y)] of the loop of
    [noon_nadir_event_times]. *)
Definition noon_nadir_of_pair (xy : EventTime * EventTime) : EventTime :=
  let x := fst xy in
  let y := snd xy in
  let delta := time y - time x in
  let midpoint := tt_jd (time x + delta / 2) in
  mkEventTime
    (mkEvent (value (event x))
             (if truthy (value (event x)) then "Solor noon"%string
              else "Nadir"%string))
    midpoint.

(** [noon_nadir_event_times]. *)
Definition noon_nadir_event_times (start end_ : Q) : list EventTime :=
  let rs_event_times := rise_set_event_times start end_ in
  map noon_nadir_of_pair (zip_next rs_event_times).

(** [surrounding_events]. *)
Definition surrounding_events (t julian_time : Q)
    (events_func : Q -> Q -> list EventTime)
  : option (EventTime * EventTime) :=
  let t0 := tt_jd (t - julian_time) in
  let t1 := tt_jd (t + julian_time) in
  let sets := events_func t0 t1 in
  find_surrounding_events sets t.

(** [orbit_degrees_from_winter_solstice]; subscripting a [None] pair raises. *)
Definition orbit_degrees_from_winter_solstice (t : Q) : option Q :=
  match surrounding_events t 100 season_event_times with
  | None => None
  | Some evts =>
      match position_as_percent evts t with
      | None => None
      | Some p =>
          let degrees := p * 90 in
          Some (relative_to_absolute_orbit_degrees
                  (value (event (fst evts))) degrees)
      end
  end.

(** [rotation_degrees_from_solar_noon]. *)
Definition rotation_degrees_from_solar_noon (t : Q) : option Q :=
  match surrounding_events t 1 noon_nadir_event_times with
  | None => None
  | Some evts =>
      match position_as_percent evts t with
      | None => None
      | Some p =>
          let degrees := p * 180 in
          Some (if truthy (value (event (fst evts))) then degrees
                else degrees + 180)
      end
  end.

(** [earth_model]. *)
Definition earth_model (t : Q) : option EarthModel :=
  match orbit_degrees_from_winter_solstice t with
  | None => None
  | Some orbit =>
      match rotation_degrees_from_solar_noon t with
      | None => None
      | Some rotation =>
          let rotation := rotation - orbit in
          let rotation := if Qltb rotation 0 then rotation + 360 else rotation in
          Some (mkEarthModel orbit rotation)
      end
  end.

(** [earth_model_now], for the reading [now] of [timescale.now()]. *)
Definition earth_model_now (now : Q) : option EarthModel := earth_model now.

(** The dictionary [d] that [main] prints, without its time string. *)
Record Readout : Type :=
  mkReadout { d_orbit : Q; d_rotation : Q; d_effective : Q }.

(** [main] of [earth.py], for the reading [now] of [timescale.now()]. *)
Definition main (now : Q) : option Readout :=
  match earth_model now with
  | None => None
  | Some em =>
      Some (mkReadout (orbit_degrees em) (rotation_degrees em)
              (Qmod (rotation_degrees em + orbit_degrees em) 360))
  end.

End Almanac.

(** The test of [find_surrounding_events] on one pair. *)
Definition straddles (t : Q) (xy : EventTime * EventTime) : Prop :=
  time (fst xy) < t /\ t < time (snd xy).

(** Ascending order of a timeline by time. *)
Definition ascending (events : list EventTime) : Prop :=
  StronglySorted (fun a b => time a <= time b) events.

(** [t] lies strictly between the consecutive events [x] and [y] of the
    ascending timeline that [events_func] returns for the window of
    [surrounding_events t radius events_func]. *)
Definition between_consecutive (events_func : Q -> Q -> list EventTime)
    (radius t : Q) (x y : EventTime) : Prop :=
  let events := events_func (tt_jd (t - radius)) (tt_jd (t + radius)) in
  ascending events /\ In (x, y) (zip_next events) /\
  time x < t /\ t < time y.

End Earth.

(** ** [earth_model.py]: homing and the stepping loop *)

Module Controller.

Import Earth.

Definition STEPS_PER_REV : Z := 200.
Definition DEGREES_PER_STEP : Q := 360 / inject_Z STEPS_PER_REV.

(** [stepper.FORWARD] and [stepper.BACKWARD]. *)
Inductive Direction : Type := FORWARD | BACKWARD.

(** The two motors of the kit: [steppers = [kit.stepper1, kit.stepper2]]. *)
Inductive Motor : Type := stepper1 | stepper2.

(** [hall_effect.Sensor(pin)]. *)
Inductive Sensor : Type := SensorPin (pin : Z).

Definition steppers (i : nat) : Motor :=
  match i with O => stepper1 | _ => stepper2 end.

Definition sensors (i : nat) : Sensor :=
  match i with O => SensorPin 27 | _ => SensorPin 17 end.

(** One step command as it reaches the driver. *)
Definition Command : Type := (Motor * Direction)%type.

Definition direction_of (forward : bool) : Direction :=
  if forward then FORWARD else BACKWARD.

(** How a run of the program ends: with a value, by [sys.exit(code)], or,
    in the model only, with the iteration budget of a loop used up. *)
Inductive Outcome (A : Type) : Type :=
| Ret (a : A)
| Exit (code : Z)
| OutOfFuel.

Arguments Ret {A} a.
Arguments Exit {A} code.
Arguments OutOfFuel {A}.

Section Hardware.

(** The physical world behind the drivers: a step moves it, a sensor read
    observes it (and may change it).  Sleeping and logging are left out. *)
Variable World : Type.
Variable onestep : Motor -> Direction -> World -> World.
Variable sensing : Sensor -> World -> bool * World.

(** The state threaded through the program: the world and the step commands
    issued so far, oldest first. *)
Record State : Type := mkState { world : World; issued : list Command }.

Definition M (A : Type) : Type := State -> Outcome A * State.

Definition ret {A : Type} (a : A) : M A := fun s => (Ret a, s).

Definition bind {A B : Type} (m : M A) (k : A -> M B) : M B :=
  fun s =>
    match m s with
    | (Ret a, s') => k a s'
    | (Exit code, s') => (Exit code, s')
    | (OutOfFuel, s') => (OutOfFuel, s')
    end.

Notation "x <- m ;; k" := (bind m (fun x => k))
  (at level 61, m at next level, right associativity).
Notation "m ;;; k" := (bind m (fun _ => k))
  (at level 61, right associativity).

(** [motor.onestep(direction=...)]. *)
Definition motor_onestep (motor : Motor) (d : Direction) : M unit :=
  fun s => (Ret tt, mkState (onestep motor d (world s))
                            (issued s ++ [(motor, d)])).

(** [sensor.sensing()]. *)
Definition sensor_sensing (sensor : Sensor) : M bool :=
  fun s => let (b, w) := sensing sensor (world s) in
           (Ret b, mkState w (issued s)).

(** [sys.exit(code)]. *)
Definition sys_exit {A : Type} (code : Z) : M A := fun s => (Exit code, s).

Definition out_of_fuel {A : Type} : M A := fun s => (OutOfFuel, s).

(** [for i in range(n): body]. *)
Fixpoint for_range (n : nat) (body : M unit) : M unit :=
  match n with
  | O => ret tt
  | S n' => body ;;; for_range n' body
  end.

(** [take_steps]. *)
Definition take_steps (forward : bool) (motor : Motor) (steps : Z) : M unit :=
  for_range (Z.to_nat steps) (motor_onestep motor (direction_of forward)).

(** The [while] loop of [step_while_over_sensor], entered with the current
    values of [found] and [steps]; one unit of [fuel] per iteration. *)
Fixpoint while_over_sensor_loop (fuel : nat) (step_forward : bool)
    (motor : Motor) (sensor : Sensor) (max_steps : Z)
    (found : bool) (steps : Z) : M (bool * Z) :=
  if negb found && (steps <? max_steps)%Z then
    match fuel with
    | O => out_of_fuel
    | S fuel' =>
        b <- sensor_sensing sensor ;;
        if b then
          motor_onestep motor (direction_of step_forward) ;;;
          while_over_sensor_loop fuel' step_forward motor sensor max_steps
                                 found (steps + 1)
        else
          while_over_sensor_loop fuel' step_forward motor sensor max_steps
                                 true steps
    end
  else ret (found, steps).

(** The [while] loop of [step_until_over_sensor]. *)
Fixpoint until_over_sensor_loop (fuel : nat) (step_forward : bool)
    (motor : Motor) (sensor : Sensor) (max_steps : Z)
    (found : bool) (steps : Z) : M (bool * Z) :=
  if negb found && (steps <? max_steps)%Z then
    match fuel with
    | O => out_of_fuel
    | S fuel' =>
        b <- sensor_sensing sensor ;;
        if b then
          until_over_sensor_loop fuel' step_forward motor sensor max_steps
                                 true steps
        else
          motor_onestep motor (direction_of step_forward) ;;;
          until_over_sensor_loop fuel' step_forward motor sensor max_steps
                                 found (steps + 1)
    end
  else ret (found, steps).

(** The two loops as one: step while the sensor reads [step_on], stop at
    the first other reading.  Used to reason about both at once. *)
Fixpoint sensor_loop (fuel : nat) (step_on : bool) (step_forward : bool)
    (motor : Motor) (sensor : Sensor) (max_steps : Z)
    (found : bool) (steps : Z) : M (bool * Z) :=
  if negb found && (steps <? max_steps)%Z then
    match fuel with
    | O => out_of_fuel
    | S fuel' =>
        b <- sensor_sensing sensor ;;
        if Bool.eqb b step_on then
          motor_onestep motor (direction_of step_forward) ;;;
          sensor_loop fuel' step_on step_forward motor sensor max_steps
                      found (steps + 1)
        else
          sensor_loop fuel' step_on step_forward motor sensor max_steps
                      true steps
    end
  else ret (found, steps).

(** The world after [k] rounds of reading [sensor] and stepping [motor]. *)
Fixpoint world_after (k : nat) (motor : Motor) (d : Direction)
    (sensor : Sensor) (w : World) : World :=
  match k with
  | O => w
  | S k' =>
      world_after k' motor d sensor (onestep motor d (snd (sensing sensor w)))
  end.

(** What [sensor] reads after [k] such rounds. *)
Definition reading (k : nat) (motor : Motor) (d : Direction)
    (sensor : Sensor) (w : World) : bool :=
  fst (sensing sensor (world_after k motor d sensor w)).

(** The iteration budget given to the two loops: one iteration per step
    and one for setting [found]. *)
Definition loop_fuel (max_steps : Z) : nat := S (Z.to_nat max_steps).

(** [step_while_over_sensor]. *)
Definition step_while_over_sensor (step_forward : bool) (motor : Motor)
    (sensor : Sensor) (max_steps : Z) : M (bool * Z) :=
  while_over_sensor_loop (loop_fuel max_steps) step_forward motor sensor
                         max_steps false 0.

(** [step_until_over_sensor]. *)
Definition step_until_over_sensor (step_forward : bool) (motor : Motor)
    (sensor : Sensor) (max_steps : Z) : M (bool * Z) :=
  until_over_sensor_loop (loop_fuel max_steps) step_forward motor sensor
                         max_steps false 0.

(** [scan]. *)
Definition scan (forward : bool) (motor : Motor) (sensor : Sensor)
    (max_scan_steps max_sensor_steps : Z) : M bool :=
  r1 <- step_while_over_sensor (negb forward) motor sensor max_sensor_steps ;;
  if negb (fst r1) then ret false else
  r2 <- step_until_over_sensor forward motor sensor max_scan_steps ;;
  if negb (fst r2) then ret false else
  r3 <- step_while_over_sensor forward motor sensor max_sensor_steps ;;
  if negb (fst r3) then ret false else
  take_steps (negb forward) motor (int_of_Q (inject_Z (snd r3) / 2)) ;;;
  ret true.

(** [validate_orbit_degrees]. *)
Definition validate_orbit_degrees (degrees : Q) : M unit :=
  if negb (Qle_bool 0 degrees && Qle_bool degrees 180) then sys_exit 1
  else ret tt.

(** [validate_rotation_degrees]. *)
Definition validate_rotation_degrees (degrees : Q) : M unit :=
  if negb (Qle_bool 0 degrees && Qle_bool degrees 360) then sys_exit 1
  else ret tt.

(** [steps_and_floor]. *)
Definition steps_and_floor (degrees : Q) : Q * Z :=
  let steps := degrees / DEGREES_PER_STEP in
  let floor := int_of_Q steps in
  (steps, floor).

(** The orbit-axis update inside the loop of [main]; returns the new
    [orbit_steps_floor]. *)
Definition update_orbit (next_orbit_steps_floor orbit_steps_floor : Z)
  : M Z :=
  if negb (next_orbit_steps_floor =? orbit_steps_floor)%Z then
    let steps := Z.abs (next_orbit_steps_floor - orbit_steps_floor) in
    take_steps (next_orbit_steps_floor >? orbit_steps_floor)%Z
               (steppers 0) steps ;;;
    ret next_orbit_steps_floor
  else ret orbit_steps_floor.

(** The rotation-axis update inside the loop of [main]; returns the new
    [rotation_steps_floor]. *)
Definition update_rotation (next_rotation_steps_floor rotation_steps_floor : Z)
  : M Z :=
  if negb (next_rotation_steps_floor =? rotation_steps_floor)%Z then
    let steps := (next_rotation_steps_floor - rotation_steps_floor)%Z in
    let steps := if (steps <? 0)%Z then (STEPS_PER_REV + steps)%Z else steps in
    take_steps true (steppers 1) steps ;;;
    ret next_rotation_steps_floor
  else ret rotation_steps_floor.

(** One iteration of the [while True] loop of [main], for the model [em]
    returned by [earth.earth_model_now()]. *)
Definition main_loop_body (em : EarthModel)
    (orbit_steps_floor rotation_steps_floor : Z) : M (Z * Z) :=
  validate_orbit_degrees (orbit_degrees em) ;;;
  validate_rotation_degrees (rotation_degrees em) ;;;
  let next_orbit_steps_floor := snd (steps_and_floor (orbit_degrees em)) in
  let next_rotation_steps_floor :=
    snd (steps_and_floor (rotation_degrees em)) in
  o <- update_orbit next_orbit_steps_floor orbit_steps_floor ;;
  r <- update_rotation next_rotation_steps_floor rotation_steps_floor ;;
  ret (o, r).

(** The [while True] loop of [main], run over the models returned by the
    successive calls of [earth.earth_model_now()]; the loop has no exit of
    its own, so the end of the list is where the observation stops.  A call
    of [earth.earth_model_now()] that raises instead of returning a model
    is not part of this embedding. *)
Fixpoint main_loop (samples : list EarthModel)
    (orbit_steps_floor rotation_steps_floor : Z) : M unit :=
  match samples with
  | [] => ret tt
  | em :: rest =>
      st <- main_loop_body em orbit_steps_floor rotation_steps_floor ;;
      main_loop rest (fst st) (snd st)
  end.

(** The first sample of [main]: validation, then absolute positioning. *)
Definition main_position (em : EarthModel) : M (Z * Z) :=
  validate_orbit_degrees (orbit_degrees em) ;;;
  validate_rotation_degrees (rotation_degrees em) ;;;
  let orbit_steps_floor := snd (steps_and_floor (orbit_degrees em)) in
  let rotation_steps_floor := snd (steps_and_floor (rotation_degrees em)) in
  take_steps true (steppers 0) orbit_steps_floor ;;;
  take_steps true (steppers 1) rotation_steps_floor ;;;
  ret (orbit_steps_floor, rotation_steps_floor).

(** [main], given the models returned by [earth.earth_model_now()]. *)
Definition main (samples : list EarthModel) : M unit :=
  scan false (steppers 0) (sensors 0) 100 50 ;;;
  scan true (steppers 1) (sensors 1) 200 50 ;;;
  match samples with
  | [] => ret tt
  | em :: rest =>
      st <- main_position em ;;
      main_loop rest (fst st) (snd st)
  end.

End Hardware.

Arguments mkState {World} world issued.
Arguments world {World} s.
Arguments issued {World} s.

Definition motor_eqb (a b : Motor) : bool :=
  match a, b with
  | stepper1, stepper1 | stepper2, stepper2 => true
  | _, _ => false
  end.

(** The net displacement, in steps, that a sequence of step commands gives
    [motor]: forward steps count 1, backward steps -1, steps of the other
    motor 0. *)
Fixpoint net_steps (motor : Motor) (commands : list Command) : Z :=
  match commands with
  | [] => 0
  | (m, d) :: rest =>
      ((if motor_eqb m motor
        then match d with FORWARD => 1 | BACKWARD => -1 end
        else 0) + net_steps motor rest)%Z
  end.

(** The ranges that the two validators of [main] accept. *)
Definition validated (em : EarthModel) : Prop :=
  0 <= orbit_degrees em /\ orbit_degrees em <= 180 /\
  0 <= rotation_degrees em /\ rotation_degrees em <= 360.

(** The target steps of a model: the floors that [steps_and_floor] gives for
    its two angles. *)
Definition target_steps (em : EarthModel) : Z * Z :=
  (snd (steps_and_floor (orbit_degrees em)),
   snd (steps_and_floor (rotation_degrees em))).

End Controller.

(** ** Sample almanac and test rigs

    Concrete inputs on which the statements below are exercised. *)

Module Sample.

Import Earth Controller.

Definition season (code : Z) (name : string) (t : Q) : EventTime :=
  mkEventTime (mkEvent code name) t.

Definition sunrise (t : Q) : EventTime :=
  mkEventTime (mkEvent 1 "Sunrise") t.

Definition sunset (t : Q) : EventTime :=
  mkEventTime (mkEvent 0 "Sunset") t.

(** A year of season events, a quarter of 90 days apart. *)
Definition seasons : list EventTime :=
  [ season EVENT_WINTER_SOLSTICE "Winter Solstice" 0;
    season EVENT_VERNAL_EQUINOX "Vernal Equinox" 90;
    season EVENT_SUMMER_SOLSTICE "Summer Solstice" 180;
    season EVENT_AUTUMNAL_EQUINOX "Autumnal Equinox" 270;
    season EVENT_WINTER_SOLSTICE "Winter Solstice" 360 ].

(** Sunrise at a quarter past and sunset at three quarters past each day. *)
Definition rise_sets : list EventTime :=
  [ sunrise (397 # 4); sunset (399 # 4);
    sunrise (401 # 4); sunset (403 # 4);
    sunrise (405 # 4); sunset (407 # 4) ].

(** The events of a list that fall into a window, as [find_discrete] does. *)
Definition in_window (events : list EventTime) (start end_ : Q)
  : list EventTime :=
  filter (fun e => Qle_bool start (time e) && Qle_bool (time e) end_) events.

Definition season_event_times : Q -> Q -> list EventTime := in_window seasons.
Definition rise_set_event_times : Q -> Q -> list EventTime :=
  in_window rise_sets.

(** An almanac with no event in any window. *)
Definition no_event_times (start end_ : Q) : list EventTime := [].

(** A rig whose sensors always sense (a stuck sensor); the world has no
    state of its own. *)
Definition stuck_onestep (motor : Motor) (d : Direction) (w : unit) : unit := w.
Definition stuck_sensing (sensor : Sensor) (w : unit) : bool * unit := (true, w).

(** A rig of two axes, each at an integer position; the sensor of an axis
    senses within one step of position 0.  Pin 27 watches the axis of
    [stepper1], pin 17 that of [stepper2]. *)
Definition axes_onestep (motor : Motor) (d : Direction) (w : Z * Z) : Z * Z :=
  let delta := match d with FORWARD => 1 | BACKWARD => -1 end%Z in
  match motor with
  | stepper1 => (fst w + delta, snd w)%Z
  | stepper2 => (fst w, snd w + delta)%Z
  end.

Definition axes_sensing (sensor : Sensor) (w : Z * Z) : bool * (Z * Z) :=
  match sensor with
  | SensorPin pin =>
      let position := if (pin =? 27)%Z then fst w else snd w in
      ((Z.abs position <=? 1)%Z, w)
  end.

End Sample.

(** ** [earth.py] in binary64

    The same functions of [earth.py] over IEEE binary64, the floats the
    program computes with, each arithmetic operation rounding as Python's
    does.  A Skyfield [Time] is again its [tt] Julian date.  Used to
    evaluate the program where rounding decides the result. *)

Module EarthBinary64.

Import PrimFloat.
Local Open Scope float_scope.

(** [class EventTime], with a binary64 time. *)
Record EventTime : Type := mkEventTime { event : Earth.Event; time : float }.

(** [class EarthModel]. *)
Record EarthModel : Type :=
  mkEarthModel { orbit_degrees : float; rotation_degrees : float }.

(** [timescale.tt_jd]. *)
Definition tt_jd (jd : float) : float := jd.

(** [find_surrounding_events]. *)
Definition find_surrounding_events (events : list EventTime) (t : float)
  : option (EventTime * EventTime) :=
  find (fun xy => ltb (time (fst xy)) t && ltb t (time (snd xy)))
       (zip_next events).

(** [relative_to_absolute_orbit_degrees]. *)
Definition relative_to_absolute_orbit_degrees (season : Z) (degrees : float)
  : float :=
  if (season =? Earth.EVENT_SUMMER_SOLSTICE)%Z then 180 - degrees
  else if (season =? Earth.EVENT_AUTUMNAL_EQUINOX)%Z then 90 - degrees
  else if (season =? Earth.EVENT_WINTER_SOLSTICE)%Z then degrees
  else 90 + degrees.

(** [position_as_percent]. *)
Definition position_as_percent (events : EventTime * EventTime) (t : float)
  : float :=
  let range := time (snd events) - time (fst events) in
  let position := t - time (fst events) in
  position / range.

Section Almanac.

Variable season_event_times : float -> float -> list EventTime.
Variable rise_set_event_times : float -> float -> list EventTime.

(** The event appended for one pair of the loop of
    [noon_nadir_event_times]. *)
Definition noon_nadir_of_pair (xy : EventTime * EventTime) : EventTime :=
  let x := fst xy in
  let y := snd xy in
  let delta := time y - time x in
  let midpoint := tt_jd (time x + delta / 2) in
  mkEventTime
    (Earth.mkEvent (Earth.value (event x))
       (if truthy (Earth.value (event x)) then "Solor noon"%string
        else "Nadir"%string))
    midpoint.

(** [noon_nadir_event_times]. *)
Definition noon_nadir_event_times (start end_ : float) : list EventTime :=
  let rs_event_times := rise_set_event_times start end_ in
  map noon_nadir_of_pair (zip_next rs_event_times).

(** [surrounding_events]. *)
Definition surrounding_events (t julian_time : float)
    (events_func : float -> float -> list EventTime)
  : option (EventTime * EventTime) :=
  let t0 := tt_jd (t - julian_time) in
  let t1 := tt_jd (t + julian_time) in
  let sets := events_func t0 t1 in
  find_surrounding_events sets t.

(** [orbit_degrees_from_winter_solstice]. *)
Definition orbit_degrees_from_winter_solstice (t : float) : option float :=
  match surrounding_events t 100 season_event_times with
  | None => None
  | Some evts =>
      let degrees := position_as_percent evts t * 90 in
      Some (relative_to_absolute_orbit_degrees
              (Earth.value (event (fst evts))) degrees)
  end.

(** [rotation_degrees_from_solar_noon]. *)
Definition rotation_degrees_from_solar_noon (t : float) : option float :=
  match surrounding_events t 1 noon_nadir_event_times with
  | None => None
  | Some evts =>
      let degrees := position_as_percent evts t * 180 in
      Some (if truthy (Earth.value (event (fst evts))) then degrees
            else degrees + 180)
  end.

(** [earth_model]. *)
Definition earth_model (t : float) : option EarthModel :=
  match orbit_degrees_from_winter_solstice t with
  | None => None
  | Some orbit =>
      match rotation_degrees_from_solar_noon t with
      | None => None
      | Some rotation =>
          let rotation := rotation - orbit in
          let rotation := if ltb rotation 0 then rotation + 360 else rotation in
          Some (mkEarthModel orbit rotation)
      end
  end.

End Almanac.

(** A sample almanac: a vernal equinox a little before time 1 and a summer
    solstice at time 100; sunrise at 0, sunset at 1, sunrise at 2. *)
Definition sample_seasons : list EventTime :=
  [ mkEventTime (Earth.mkEvent Earth.EVENT_VERNAL_EQUINOX "Vernal Equinox")
                (1 - 0x1p-46);
    mkEventTime (Earth.mkEvent Earth.EVENT_SUMMER_SOLSTICE "Summer Solstice")
                100 ].

Definition sample_rise_sets : list EventTime :=
  [ mkEventTime (Earth.mkEvent 1 "Sunrise") 0;
    mkEventTime (Earth.mkEvent 0 "Sunset") 1;
    mkEventTime (Earth.mkEvent 1 "Sunrise") 2 ].

Definition in_window (events : list EventTime) (start end_ : float)
  : list EventTime :=
  filter (fun e => leb start (time e) && leb (time e) end_) events.

Definition sample_season_event_times : float -> float -> list EventTime :=
  in_window sample_seasons.
Definition sample_rise_set_event_times : float -> float -> list EventTime :=
  in_window sample_rise_sets.

End EarthBinary64.

(** * Properties *)

(** ** Comparisons and consecutive pairs *)

Lemma Qltb_lt (a b : Q) : Qltb a b = true <-> a < b.
Proof.
  unfold Qltb. rewrite negb_true_iff. split; intro H.
  - apply Qnot_le_lt. intro Hle. apply Qle_bool_iff in Hle. congruence.
  - destruct (Qle_bool b a) eqn:E; [|reflexivity].
    apply Qle_bool_iff in E. exfalso. apply (Qlt_not_le _ _ H E).
Qed.

Lemma Qltb_ge (a b : Q) : Qltb a b = false <-> b <= a.
Proof.
  unfold Qltb. rewrite negb_false_iff. apply Qle_bool_iff.
Qed.

Lemma zip_next_cons {A : Type} (a b : A) (l : list A) :
  zip_next (a :: b :: l) = (a, b) :: zip_next (b :: l).
Proof. reflexivity. Qed.

Lemma zip_next_length {A : Type} (l : list A) :
  length (zip_next l) = Nat.pred (length l).
Proof.
  unfold zip_next. rewrite length_combine.
  destruct l as [|a l]; [reflexivity|].
  cbn [tl length Nat.pred]. lia.
Qed.

Lemma find_first {A : Type} (f : A -> bool) (l : list A) (a : A) :
  find f l = Some a ->
  exists before after,
    l = before ++ a :: after /\ f a = true /\
    forall b, In b before -> f b = false.
Proof.
  induction l as [|c l IH]; simpl; [discriminate|].
  destruct (f c) eqn:E.
  - intros [= ->]. exists [], l. repeat split; auto. intros b [].
  - intros H. destruct (IH H) as (before & after & -> & Ha & Hb).
    exists (c :: before), after. repeat split; auto.
    intros b [<-|Hin]; auto.
Qed.

Lemma find_all_false {A : Type} (f : A -> bool) (l : list A) :
  (forall a, In a l -> f a = false) -> find f l = None.
Proof.
  induction l as [|c l IH]; simpl; intro H; [reflexivity|].
  rewrite (H c) by auto. apply IH. intros a Ha. apply H. auto.
Qed.

Lemma find_exists {A : Type} (f : A -> bool) (l : list A) (a : A) :
  In a l -> f a = true -> exists b, find f l = Some b.
Proof.
  intros Hin Ha. destruct (find f l) as [b|] eqn:E; [eauto|].
  rewrite (find_none f l E a Hin) in Ha. discriminate.
Qed.

Lemma zip_next_in {A : Type} (l : list A) (x y : A) :
  In (x, y) (zip_next l) -> In x l /\ In y l.
Proof.
  unfold zip_next. intro H. split.
  - eapply in_combine_l; eauto.
  - apply in_combine_r in H. destruct l; [destruct H|]. right. exact H.
Qed.

(** ** The event timeline *)

Import Earth.

Lemma straddles_test (t : Q) (xy : EventTime * EventTime) :
  Qltb (time (fst xy)) t && Qltb t (time (snd xy)) = true <-> straddles t xy.
Proof.
  unfold straddles. rewrite andb_true_iff, !Qltb_lt. tauto.
Qed.

Lemma straddles_test_false (t : Q) (xy : EventTime * EventTime) :
  ~ straddles t xy ->
  Qltb (time (fst xy)) t && Qltb t (time (snd xy)) = false.
Proof.
  intro H. apply not_true_is_false. rewrite straddles_test. exact H.
Qed.

Lemma find_surrounding_events_some (events : list EventTime) (t : Q) x y :
  find_surrounding_events events t = Some (x, y) ->
  In (x, y) (zip_next events) /\ time x < t /\ t < time y.
Proof.
  unfold find_surrounding_events. intro H.
  destruct (find_some _ _ H) as [Hin Ht].
  apply straddles_test in Ht. destruct Ht. auto.
Qed.

Lemma ascending_head (a : EventTime) (l : list EventTime) (e : EventTime) :
  ascending (a :: l) -> In e (a :: l) -> time a <= time e.
Proof.
  intros Hs [<-|Hin]; [apply Qle_refl|].
  apply StronglySorted_inv in Hs. destruct Hs as [_ Hall].
  rewrite Forall_forall in Hall. auto.
Qed.

Lemma ascending_tail (a : EventTime) (l : list EventTime) :
  ascending (a :: l) -> ascending l.
Proof. intro Hs. apply StronglySorted_inv in Hs. tauto. Qed.

(** In an ascending timeline every event lies on one side of every
    consecutive pair. *)
Lemma ascending_pair_side (events : list EventTime) x y e :
  ascending events -> In (x, y) (zip_next events) -> In e events ->
  time y <= time e \/ time e <= time x.
Proof.
  induction events as [|a l IH]; [intros _ []|].
  destruct l as [|b l]; [intros _ []|].
  rewrite zip_next_cons. intros Hs [Heq|Hin] He.
  - injection Heq as <- <-. destruct He as [->|He].
    + right. apply Qle_refl.
    + left. apply (ascending_head b l e); [eapply ascending_tail; eauto|auto].
  - destruct He as [->|He].
    + right. apply (ascending_head e (b :: l) x Hs).
      right. apply (zip_next_in _ _ _ Hin).
    + apply IH; auto. eapply ascending_tail; eauto.
Qed.

Lemma ascending_last (events : list EventTime) (d e : EventTime) :
  ascending events -> In e events -> time e <= time (last events d).
Proof.
  revert e. induction events as [|a l IH]; intros e; [intros _ []|].
  intros Hs He. destruct l as [|b l].
  - destruct He as [->|[]]. apply Qle_refl.
  - change (last (a :: b :: l) d) with (last (b :: l) d).
    destruct He as [->|He].
    + apply Qle_trans with (time b).
      * apply (ascending_head e (b :: l)); simpl; auto.
      * apply IH; [eapply ascending_tail; eauto|left; reflexivity].
    + apply IH; auto. eapply ascending_tail; eauto.
Qed.

(** In an ascending timeline the consecutive pair around [t] is the one
    [find_surrounding_events] returns. *)
Lemma find_surrounding_events_ascending (events : list EventTime) (t : Q) x y :
  ascending events -> In (x, y) (zip_next events) ->
  time x < t -> t < time y ->
  find_surrounding_events events t = Some (x, y).
Proof.
  unfold find_surrounding_events.
  induction events as [|a l IH]; [intros _ []|].
  destruct l as [|b l]; [intros _ []|].
  rewrite zip_next_cons. intros Hs Hin Hx Hy. cbn [find fst snd].
  destruct (Qltb (time a) t && Qltb t (time b)) eqn:E.
  - destruct Hin as [Heq|Hin]; [congruence|]. exfalso.
    apply andb_true_iff in E. destruct E as [_ E]. apply Qltb_lt in E.
    assert (time b <= time x).
    { apply (ascending_head b l x); [eapply ascending_tail; eauto|].
      apply (zip_next_in _ _ _ Hin). }
    lra.
  - destruct Hin as [Heq|Hin].
    + injection Heq as -> ->. exfalso.
      assert (Qltb (time x) t && Qltb t (time y) = true)
        by (apply andb_true_iff; rewrite !Qltb_lt; auto).
      congruence.
    + apply IH; auto. eapply ascending_tail; eauto.
Qed.

Lemma find_surrounding_events_first (events : list EventTime) (t : Q) x y :
  find_surrounding_events events t = Some (x, y) ->
  exists before after,
    zip_next events = before ++ (x, y) :: after /\ straddles t (x, y) /\
    forall p, In p before -> ~ straddles t p.
Proof.
  unfold find_surrounding_events. intro H.
  destruct (find_first _ _ _ H) as (before & after & Hl & Ht & Hb).
  exists before, after. split; [exact Hl|]. split.
  - apply straddles_test. exact Ht.
  - intros p Hp Hs. apply straddles_test in Hs.
    rewrite (Hb p Hp) in Hs. discriminate.
Qed.

Lemma find_surrounding_events_none (events : list EventTime) (t : Q) :
  (forall p, In p (zip_next events) -> ~ straddles t p) ->
  find_surrounding_events events t = None.
Proof.
  intro H. unfold find_surrounding_events. apply find_all_false.
  intros p Hp. apply straddles_test_false. auto.
Qed.

Lemma find_surrounding_events_before (events : list EventTime) (t : Q) first rest :
  ascending events -> events = first :: rest -> t <= time first ->
  find_surrounding_events events t = None.
Proof.
  intros Hs -> Ht. apply find_surrounding_events_none.
  intros [x y] Hp [Hx _]. cbn [fst] in Hx.
  pose proof (ascending_head first rest x Hs (proj1 (zip_next_in _ _ _ Hp))).
  lra.
Qed.

Lemma find_surrounding_events_after (events : list EventTime) (t : Q) d :
  ascending events -> time (last events d) <= t ->
  find_surrounding_events events t = None.
Proof.
  intros Hs Ht. apply find_surrounding_events_none.
  intros [x y] Hp [_ Hy]. cbn [snd] in Hy.
  pose proof (ascending_last events d y Hs (proj2 (zip_next_in _ _ _ Hp))).
  lra.
Qed.

Lemma find_surrounding_events_on_event (events : list EventTime) (t : Q) e :
  ascending events -> In e events -> t == time e ->
  find_surrounding_events events t = None.
Proof.
  intros Hs He Ht. apply find_surrounding_events_none.
  intros [x y] Hp [Hx Hy]. cbn [fst snd] in Hx, Hy.
  destruct (ascending_pair_side events x y e Hs Hp He); lra.
Qed.

(** C6.  [find_surrounding_events] returns the first consecutive pair
    [(x, y)] with [x.time < time < y.time], and returns one whenever some
    consecutive pair straddles the time.  On an ascending timeline it
    returns nothing for a time before the first event, after the last event
    or equal to the time of any event; on an ascending timeline of five
    events it returns (element 2, element 3) for a time strictly between
    them and nothing for a time before element 0 or after element 4. *)
Theorem find_surrounding_events_spec (events : list EventTime) (t : Q) :
  (forall x y, find_surrounding_events events t = Some (x, y) ->
     exists before after,
       zip_next events = before ++ (x, y) :: after /\ straddles t (x, y) /\
       forall p, In p before -> ~ straddles t p) /\
  (forall p, In p (zip_next events) -> straddles t p ->
     exists x y, find_surrounding_events events t = Some (x, y)) /\
  (ascending events ->
     (forall first rest, events = first :: rest -> t < time first ->
        find_surrounding_events events t = None) /\
     (forall d, time (last events d) < t ->
        find_surrounding_events events t = None) /\
     (forall e, In e events -> t == time e ->
        find_surrounding_events events t = None)) /\
  (forall e0 e1 e2 e3 e4,
     events = [e0; e1; e2; e3; e4] -> ascending events ->
     (time e2 < t -> t < time e3 ->
        find_surrounding_events events t = Some (e2, e3)) /\
     (t < time e0 -> find_surrounding_events events t = None) /\
     (time e4 < t -> find_surrounding_events events t = None)).
Proof.
  split; [|split; [|split]].
  - intros x y H. apply find_surrounding_events_first. exact H.
  - intros p Hp Hs. apply straddles_test in Hs.
    destruct (find_exists
                (fun xy => Qltb (time (fst xy)) t && Qltb t (time (snd xy)))
                _ _ Hp Hs) as [[x y] H].
    exists x, y. exact H.
  - intro Hs. split; [|split].
    + intros first rest He Ht.
      apply (find_surrounding_events_before events t first rest); auto.
      apply Qlt_le_weak. exact Ht.
    + intros d Ht. apply (find_surrounding_events_after events t d); auto.
      apply Qlt_le_weak. exact Ht.
    + intros e He Ht. apply (find_surrounding_events_on_event events t e); auto.
  - intros e0 e1 e2 e3 e4 -> Hs. split; [|split].
    + intros H2 H3. apply find_surrounding_events_ascending; auto.
      cbv [zip_next combine tl]. simpl. auto.
    + intro Ht. apply (find_surrounding_events_before _ t e0 [e1; e2; e3; e4]); auto.
      apply Qlt_le_weak. exact Ht.
    + intro Ht. apply (find_surrounding_events_after _ t e0); auto.
      apply Qlt_le_weak. exact Ht.
Qed.

(** ** The position model *)

Lemma fraction_bounds (a t b : Q) :
  a < t -> t < b -> 0 < (t - a) / (b - a) /\ (t - a) / (b - a) < 1.
Proof.
  intros Ha Hb. split.
  - apply Qlt_shift_div_l; lra.
  - apply Qlt_shift_div_r; lra.
Qed.

Lemma position_as_percent_straddles (x y : EventTime) (t : Q) :
  time x < t -> t < time y ->
  position_as_percent (x, y) t = Some ((t - time x) / (time y - time x)).
Proof.
  intros Hx Hy. unfold position_as_percent. cbn [fst snd].
  destruct (Qeq_bool (time y - time x) 0) eqn:E; [|reflexivity].
  apply Qeq_bool_iff in E. lra.
Qed.

Lemma relative_to_absolute_orbit_degrees_range (season : Z) (d : Q) :
  0 < d -> d < 90 ->
  0 < relative_to_absolute_orbit_degrees season d /\
  relative_to_absolute_orbit_degrees season d < 180.
Proof.
  intros H0 H90. unfold relative_to_absolute_orbit_degrees.
  destruct (season =? EVENT_SUMMER_SOLSTICE)%Z;
    [|destruct (season =? EVENT_AUTUMNAL_EQUINOX)%Z;
      [|destruct (season =? EVENT_WINTER_SOLSTICE)%Z]]; lra.
Qed.

Lemma between_consecutive_found (events_func : Q -> Q -> list EventTime)
    (radius t : Q) (x y : EventTime) :
  between_consecutive events_func radius t x y ->
  surrounding_events t radius events_func = Some (x, y).
Proof.
  intros (Hs & Hin & Hx & Hy). unfold surrounding_events.
  apply find_surrounding_events_ascending; auto.
Qed.

Lemma fraction_near_start (a b t c : Q) :
  a < b -> t - a < c * (b - a) -> (t - a) / (b - a) < c.
Proof. intros Hab H. apply Qlt_shift_div_r; lra. Qed.

Lemma fraction_near_end (a b t c : Q) :
  a < b -> b - t < c * (b - a) -> 1 - c < (t - a) / (b - a).
Proof.
  intros Hab H.
  assert (E : (t - a) / (b - a) == 1 - (b - t) / (b - a)) by (field; lra).
  assert ((b - t) / (b - a) < c) by (apply Qlt_shift_div_r; lra).
  lra.
Qed.

Lemma fraction_difference (a b t1 t2 : Q) :
  a < b ->
  (t2 - a) / (b - a) - (t1 - a) / (b - a) == (t2 - t1) / (b - a).
Proof. intro Hab. field. lra. Qed.

Lemma fraction_increasing (a b t1 t2 : Q) :
  a < b -> t1 < t2 -> 0 < (t2 - t1) / (b - a).
Proof. intros Hab H. apply Qlt_shift_div_l; lra. Qed.

(** A positive distance [delta] within which a fraction of the segment
    [a, b] stays below [c]. *)
Lemma segment_delta (a b c : Q) :
  0 < c -> exists delta, 0 < delta /\ (a < b -> delta == c * (b - a)).
Proof.
  intro Hc. destruct (Qlt_le_dec a b) as [Hab|Hab].
  - exists (c * (b - a)). split; [|reflexivity].
    apply Qmult_lt_0_compat; lra.
  - exists 1. split; [reflexivity|]. intro. lra.
Qed.

Section OrbitModel.

Variable season_event_times : Q -> Q -> list EventTime.

Local Abbreviation orbit :=
  (orbit_degrees_from_winter_solstice season_event_times).

Lemma orbit_found (t : Q) (x y : EventTime) :
  surrounding_events t 100 season_event_times = Some (x, y) ->
  time x < t /\ t < time y /\
  orbit t = Some (relative_to_absolute_orbit_degrees (value (event x))
                    ((t - time x) / (time y - time x) * 90)).
Proof.
  intro H. pose proof H as H'. unfold surrounding_events in H'.
  apply find_surrounding_events_some in H'. destruct H' as (_ & Hx & Hy).
  repeat split; auto.
  unfold orbit_degrees_from_winter_solstice. rewrite H.
  rewrite position_as_percent_straddles by auto. reflexivity.
Qed.

Lemma orbit_on_segment (t : Q) (x y : EventTime) (v : Q) :
  between_consecutive season_event_times 100 t x y ->
  orbit t = Some v ->
  time x < t /\ t < time y /\
  v = relative_to_absolute_orbit_degrees (value (event x))
        ((t - time x) / (time y - time x) * 90).
Proof.
  intros Hb Hv. apply between_consecutive_found in Hb.
  destruct (orbit_found t x y Hb) as (Hx & Hy & Ho).
  rewrite Ho in Hv. injection Hv as <-. auto.
Qed.

Lemma orbit_range (t o : Q) : orbit t = Some o -> 0 < o /\ o < 180.
Proof.
  unfold orbit_degrees_from_winter_solstice.
  destruct (surrounding_events t 100 season_event_times) as [[x y]|] eqn:E;
    [|discriminate].
  destruct (orbit_found t x y E) as (Hx & Hy & _).
  rewrite position_as_percent_straddles by auto. intros [= <-].
  destruct (fraction_bounds _ _ _ Hx Hy).
  apply relative_to_absolute_orbit_degrees_range; lra.
Qed.

(** C1.  For a time strictly between two consecutive season events,
    [orbit_degrees_from_winter_solstice] is the offset [p * 90] of the
    fractional position [p], mapped through the season code of the preceding
    event (summer solstice: 180 - offset, autumnal equinox: 90 - offset,
    winter solstice: offset, otherwise 90 + offset).  Within a segment the
    value is linear in the time, hence continuous and strictly monotonic;
    its one-sided limits at the two ends of a segment are the values of the
    mapping at offsets 0 and 90, which are 0 at a winter solstice, 90 at
    either equinox and 180 at a summer solstice, and agree where two
    segments of the season cycle meet.  (At the instant of an event itself
    no straddling pair exists, so these are limits.) *)
Theorem orbit_triangle_wave :
  (forall t x y,
     between_consecutive season_event_times 100 t x y ->
     let offset := (t - time x) / (time y - time x) * 90 in
     0 < offset /\ offset < 90 /\
     orbit t =
       Some (relative_to_absolute_orbit_degrees (value (event x)) offset)) /\
  (forall season offset,
     (season = EVENT_SUMMER_SOLSTICE ->
        relative_to_absolute_orbit_degrees season offset = 180 - offset) /\
     (season = EVENT_AUTUMNAL_EQUINOX ->
        relative_to_absolute_orbit_degrees season offset = 90 - offset) /\
     (season = EVENT_WINTER_SOLSTICE ->
        relative_to_absolute_orbit_degrees season offset = offset) /\
     (season <> EVENT_SUMMER_SOLSTICE -> season <> EVENT_AUTUMNAL_EQUINOX ->
      season <> EVENT_WINTER_SOLSTICE ->
        relative_to_absolute_orbit_degrees season offset = 90 + offset)) /\
  (forall t1 t2 x y v1 v2,
     between_consecutive season_event_times 100 t1 x y ->
     between_consecutive season_event_times 100 t2 x y ->
     orbit t1 = Some v1 -> orbit t2 = Some v2 ->
     let falling := value (event x) = EVENT_SUMMER_SOLSTICE \/
                    value (event x) = EVENT_AUTUMNAL_EQUINOX in
     (falling -> v1 - v2 == 90 * ((t2 - t1) / (time y - time x))) /\
     (~ falling -> v2 - v1 == 90 * ((t2 - t1) / (time y - time x))) /\
     (t1 < t2 -> (falling -> v2 < v1) /\ (~ falling -> v1 < v2))) /\
  (forall x y eps, 0 < eps ->
     exists delta, 0 < delta /\
       forall t v,
         between_consecutive season_event_times 100 t x y ->
         orbit t = Some v ->
         (t - time x < delta ->
            Qabs (v - relative_to_absolute_orbit_degrees (value (event x)) 0)
              < eps) /\
         (time y - t < delta ->
            Qabs (v - relative_to_absolute_orbit_degrees (value (event x)) 90)
              < eps)) /\
  (relative_to_absolute_orbit_degrees EVENT_WINTER_SOLSTICE 0 == 0 /\
   relative_to_absolute_orbit_degrees EVENT_WINTER_SOLSTICE 90 == 90 /\
   relative_to_absolute_orbit_degrees EVENT_VERNAL_EQUINOX 0 == 90 /\
   relative_to_absolute_orbit_degrees EVENT_VERNAL_EQUINOX 90 == 180 /\
   relative_to_absolute_orbit_degrees EVENT_SUMMER_SOLSTICE 0 == 180 /\
   relative_to_absolute_orbit_degrees EVENT_SUMMER_SOLSTICE 90 == 90 /\
   relative_to_absolute_orbit_degrees EVENT_AUTUMNAL_EQUINOX 0 == 90 /\
   relative_to_absolute_orbit_degrees EVENT_AUTUMNAL_EQUINOX 90 == 0).
Proof.
  split; [|split; [|split; [|split]]].
  - intros t x y Hb offset. pose proof Hb as Hf.
    apply between_consecutive_found in Hf.
    destruct (orbit_found t x y Hf) as (Hx & Hy & Ho).
    destruct (fraction_bounds _ _ _ Hx Hy) as [H0 H1].
    subst offset. repeat split; try lra. exact Ho.
  - intros season offset. unfold relative_to_absolute_orbit_degrees.
    repeat split.
    + intros ->. reflexivity.
    + intros ->. reflexivity.
    + intros ->. reflexivity.
    + intros H1 H2 H3.
      apply Z.eqb_neq in H1, H2, H3. rewrite H1, H2, H3. reflexivity.
  - intros t1 t2 x y v1 v2 Hb1 Hb2 Hv1 Hv2 falling.
    destruct (orbit_on_segment t1 x y v1 Hb1 Hv1) as (Hx1 & Hy1 & ->).
    destruct (orbit_on_segment t2 x y v2 Hb2 Hv2) as (Hx2 & Hy2 & ->).
    assert (Hxy : time x < time y) by lra.
    pose proof (fraction_difference (time x) (time y) t1 t2 Hxy) as Hd.
    pose proof (fraction_increasing (time x) (time y) t1 t2 Hxy) as Hi.
    subst falling. unfold relative_to_absolute_orbit_degrees.
    destruct (Z.eqb_spec (value (event x)) EVENT_SUMMER_SOLSTICE) as [E1|E1];
      [|destruct (Z.eqb_spec (value (event x)) EVENT_AUTUMNAL_EQUINOX)
          as [E2|E2];
        [|destruct (Z.eqb_spec (value (event x)) EVENT_WINTER_SOLSTICE)]];
      (split; [|split; [|intro Hlt; specialize (Hi Hlt); split]]);
      intro Hf; try tauto; try lra.
  - intros x y eps Heps.
    assert (Hc : 0 < eps * (1 # 90)) by lra.
    destruct (segment_delta (time x) (time y) (eps * (1 # 90)) Hc)
      as (delta & Hdelta & Hd).
    exists delta. split; [exact Hdelta|]. intros t v Hb Hv.
    destruct (orbit_on_segment t x y v Hb Hv) as (Hx & Hy & ->).
    assert (Hxy : time x < time y) by lra. specialize (Hd Hxy).
    destruct (fraction_bounds _ _ _ Hx Hy) as [H0 H1].
    split; intro Hnear.
    + assert ((t - time x) / (time y - time x) < eps * (1 # 90))
        by (apply fraction_near_start; lra).
      apply Qabs_Qlt_condition. unfold relative_to_absolute_orbit_degrees.
      destruct (value (event x) =? EVENT_SUMMER_SOLSTICE)%Z;
        [|destruct (value (event x) =? EVENT_AUTUMNAL_EQUINOX)%Z;
          [|destruct (value (event x) =? EVENT_WINTER_SOLSTICE)%Z]];
        split; lra.
    + assert (1 - eps * (1 # 90) < (t - time x) / (time y - time x))
        by (apply fraction_near_end; lra).
      apply Qabs_Qlt_condition. unfold relative_to_absolute_orbit_degrees.
      destruct (value (event x) =? EVENT_SUMMER_SOLSTICE)%Z;
        [|destruct (value (event x) =? EVENT_AUTUMNAL_EQUINOX)%Z;
          [|destruct (value (event x) =? EVENT_WINTER_SOLSTICE)%Z]];
        split; lra.
  - cbv [relative_to_absolute_orbit_degrees]. simpl. repeat split; reflexivity.
Qed.

End OrbitModel.

Section RotationModel.

Variable rise_set_event_times : Q -> Q -> list EventTime.

Local Abbreviation rotation :=
  (rotation_degrees_from_solar_noon rise_set_event_times).
Local Abbreviation noon_nadir := (noon_nadir_event_times rise_set_event_times).

Lemma rotation_found (t : Q) (x y : EventTime) :
  surrounding_events t 1 noon_nadir = Some (x, y) ->
  time x < t /\ t < time y /\
  rotation t = Some (if truthy (value (event x))
                     then (t - time x) / (time y - time x) * 180
                     else (t - time x) / (time y - time x) * 180 + 180).
Proof.
  intro H. pose proof H as H'. unfold surrounding_events in H'.
  apply find_surrounding_events_some in H'. destruct H' as (_ & Hx & Hy).
  repeat split; auto.
  unfold rotation_degrees_from_solar_noon.
  rewrite H. rewrite position_as_percent_straddles by auto. reflexivity.
Qed.

Lemma rotation_on_segment (t : Q) (x y : EventTime) (v : Q) :
  between_consecutive noon_nadir 1 t x y ->
  rotation t = Some v ->
  time x < t /\ t < time y /\
  v = (if truthy (value (event x))
       then (t - time x) / (time y - time x) * 180
       else (t - time x) / (time y - time x) * 180 + 180).
Proof.
  intros Hb Hv. apply between_consecutive_found in Hb.
  destruct (rotation_found t x y Hb) as (Hx & Hy & Ho).
  rewrite Ho in Hv. injection Hv as <-. auto.
Qed.

Lemma rotation_range (t r : Q) : rotation t = Some r -> 0 < r /\ r < 360.
Proof.
  unfold rotation_degrees_from_solar_noon.
  destruct (surrounding_events t 1 noon_nadir) as [[x y]|] eqn:E;
    [|discriminate].
  destruct (rotation_found t x y E) as (Hx & Hy & _).
  rewrite position_as_percent_straddles by auto. intros [= <-].
  destruct (fraction_bounds _ _ _ Hx Hy).
  destruct (truthy (value (event x))); lra.
Qed.

(** C7.  For a time strictly between two consecutive noon/nadir events,
    [rotation_degrees_from_solar_noon] is [p * 180] for the fractional
    position [p], plus 180 exactly when the preceding event carries a false
    tag (nadir).  It is linear and strictly increasing within a segment; its
    limit at the start of a segment is 0 after a solar noon and 180 after a
    nadir, and at the end of a segment 180 when the segment started at a
    noon and 360 (the seam with 0) when it started at a nadir.  (At the
    instant of an event itself no straddling pair exists, so these are
    limits.) *)
Theorem rotation_sawtooth :
  (forall t x y,
     between_consecutive noon_nadir 1 t x y ->
     let p := (t - time x) / (time y - time x) in
     0 < p /\ p < 1 /\
     (truthy (value (event x)) = true -> rotation t = Some (p * 180)) /\
     (truthy (value (event x)) = false ->
        rotation t = Some (p * 180 + 180))) /\
  (forall t1 t2 x y v1 v2,
     between_consecutive noon_nadir 1 t1 x y ->
     between_consecutive noon_nadir 1 t2 x y ->
     rotation t1 = Some v1 -> rotation t2 = Some v2 ->
     v2 - v1 == 180 * ((t2 - t1) / (time y - time x)) /\
     (t1 < t2 -> v1 < v2)) /\
  (forall x y eps, 0 < eps ->
     exists delta, 0 < delta /\
       forall t v,
         between_consecutive noon_nadir 1 t x y ->
         rotation t = Some v ->
         let start := if truthy (value (event x)) then 0 else 180 in
         (t - time x < delta -> Qabs (v - start) < eps) /\
         (time y - t < delta -> Qabs (v - (start + 180)) < eps)).
Proof.
  split; [|split].
  - intros t x y Hb p. pose proof Hb as Hf.
    apply between_consecutive_found in Hf.
    destruct (rotation_found t x y Hf) as (Hx & Hy & Ho).
    destruct (fraction_bounds _ _ _ Hx Hy) as [H0 H1].
    subst p. repeat split; try lra; intro E; rewrite E in Ho; exact Ho.
  - intros t1 t2 x y v1 v2 Hb1 Hb2 Hv1 Hv2.
    destruct (rotation_on_segment t1 x y v1 Hb1 Hv1) as (Hx1 & Hy1 & ->).
    destruct (rotation_on_segment t2 x y v2 Hb2 Hv2) as (Hx2 & Hy2 & ->).
    assert (Hxy : time x < time y) by lra.
    pose proof (fraction_difference (time x) (time y) t1 t2 Hxy) as Hd.
    pose proof (fraction_increasing (time x) (time y) t1 t2 Hxy) as Hi.
    destruct (truthy (value (event x)));
      (split; [|intro Hlt; specialize (Hi Hlt)]); lra.
  - intros x y eps Heps.
    assert (Hc : 0 < eps * (1 # 180)) by lra.
    destruct (segment_delta (time x) (time y) (eps * (1 # 180)) Hc)
      as (delta & Hdelta & Hd).
    exists delta. split; [exact Hdelta|]. intros t v Hb Hv start.
    destruct (rotation_on_segment t x y v Hb Hv) as (Hx & Hy & ->).
    assert (Hxy : time x < time y) by lra. specialize (Hd Hxy).
    destruct (fraction_bounds _ _ _ Hx Hy) as [H0 H1].
    subst start. split; intro Hnear.
    + assert ((t - time x) / (time y - time x) < eps * (1 # 180))
        by (apply fraction_near_start; lra).
      apply Qabs_Qlt_condition.
      destruct (truthy (value (event x))); split; lra.
    + assert (1 - eps * (1 # 180) < (t - time x) / (time y - time x))
        by (apply fraction_near_end; lra).
      apply Qabs_Qlt_condition.
      destruct (truthy (value (event x))); split; lra.
Qed.

End RotationModel.

Section WholeModel.

Variable season_event_times : Q -> Q -> list EventTime.
Variable rise_set_event_times : Q -> Q -> list EventTime.

(** C2 (as amended).  When both sub-computations succeed, [earth_model]
    returns the orbit degrees unchanged and, as rotation, the rotation
    degrees minus the orbit degrees, with 360 added exactly when that
    difference is negative; the resulting rotation lies in the closed range
    [0, 360].  (In exact arithmetic it stays below 360; in binary64 a
    negative difference close enough to zero plus 360 rounds to 360.0, see
    [earth_model_binary64_reaches_360].) *)
Theorem earth_model_spec (t o r : Q) :
  orbit_degrees_from_winter_solstice season_event_times t = Some o ->
  rotation_degrees_from_solar_noon rise_set_event_times t = Some r ->
  exists em,
    earth_model season_event_times rise_set_event_times t = Some em /\
    orbit_degrees em = o /\
    (r - o < 0 -> rotation_degrees em = r - o + 360) /\
    (0 <= r - o -> rotation_degrees em = r - o) /\
    0 <= rotation_degrees em /\ rotation_degrees em <= 360.
Proof.
  intros Ho Hr.
  destruct (orbit_range season_event_times t o Ho) as [Ho0 Ho1].
  destruct (rotation_range rise_set_event_times t r Hr) as [Hr0 Hr1].
  unfold earth_model. rewrite Ho, Hr.
  eexists. split; [reflexivity|]. cbn [orbit_degrees rotation_degrees].
  split; [reflexivity|].
  destruct (Qltb (r - o) 0) eqn:E.
  - apply Qltb_lt in E. repeat split; intros; try reflexivity; lra.
  - apply Qltb_ge in E. repeat split; intros; try reflexivity; lra.
Qed.

End WholeModel.

(** ** The noon and nadir timeline *)

Lemma zip_next_nth_error {A : Type} (l : list A) (i : nat) (x y : A) :
  nth_error l i = Some x -> nth_error l (S i) = Some y ->
  nth_error (zip_next l) i = Some (x, y).
Proof.
  revert i. induction l as [|a l IH]; intros i Hx Hy.
  - destruct i; discriminate.
  - destruct l as [|b l]; [destruct i; discriminate|].
    rewrite zip_next_cons. destruct i as [|i].
    + simpl in Hx, Hy. injection Hx as <-. injection Hy as <-. reflexivity.
    + change (nth_error (zip_next (b :: l)) i = Some (x, y)).
      apply IH; assumption.
Qed.

Section NoonNadir.

Variable rise_set_event_times : Q -> Q -> list EventTime.

(** C8 (as amended).  [noon_nadir_event_times] emits, for each consecutive
    pair [(x, y)] of the rise/set sequence and in the same order, one event
    at the midpoint of the two times, carrying the value of [x] and labelled
    'Solor noon' (the spelling of the source) when that value is true (a
    sunrise) and 'Nadir' otherwise.  A non-empty rise/set sequence gives
    exactly one event fewer; an empty one gives an empty result. *)
Theorem noon_nadir_event_times_spec (start end_ : Q) :
  let rs := rise_set_event_times start end_ in
  let out := noon_nadir_event_times rise_set_event_times start end_ in
  (forall i x y,
     nth_error rs i = Some x -> nth_error rs (S i) = Some y ->
     exists e,
       nth_error out i = Some e /\
       time e == (time x + time y) / 2 /\
       value (event e) = value (event x) /\
       (truthy (value (event x)) = true ->
          label (event e) = "Solor noon"%string) /\
       (truthy (value (event x)) = false ->
          label (event e) = "Nadir"%string)) /\
  (rs <> [] -> S (length out) = length rs) /\
  (rs = [] -> out = []).
Proof.
  intros rs out. subst rs out. unfold noon_nadir_event_times.
  split; [|split].
  - intros i x y Hx Hy.
    exists (noon_nadir_of_pair (x, y)). split.
    + apply map_nth_error. apply zip_next_nth_error; assumption.
    + unfold noon_nadir_of_pair, tt_jd. cbn [fst snd time event value label].
      split; [field|]. split; [reflexivity|].
      split; intros ->; reflexivity.
  - intro Hne. rewrite length_map, zip_next_length.
    destruct (rise_set_event_times start end_); [congruence|reflexivity].
  - intros ->. reflexivity.
Qed.

End NoonNadir.

(** C8, as first stated, fails on a window without events: the result has as
    many elements as the input (none), not one fewer. *)
Lemma noon_nadir_event_times_empty_window :
  Sample.no_event_times 0 1 = [] /\
  noon_nadir_event_times Sample.no_event_times 0 1 = [] /\
  S (length (noon_nadir_event_times Sample.no_event_times 0 1))
    <> length (Sample.no_event_times 0 1).
Proof. repeat split. discriminate. Qed.

Lemma noon_nadir_event_times_spec_witness :
  Sample.rise_set_event_times 100 102 <> [] /\
  S (length (noon_nadir_event_times Sample.rise_set_event_times 100 102))
    = length (Sample.rise_set_event_times 100 102) /\
  exists e,
    nth_error (noon_nadir_event_times Sample.rise_set_event_times 100 102) 0
      = Some e /\
    time e == 201 # 2 /\ label (event e) = "Solor noon"%string.
Proof.
  pose proof (noon_nadir_event_times_spec Sample.rise_set_event_times 100 102)
    as (Hpair & Hlen & _).
  assert (Hne : Sample.rise_set_event_times 100 102 <> [])
    by (vm_compute; discriminate).
  split; [exact Hne|]. split; [exact (Hlen Hne)|].
  destruct (Hpair 0%nat (Sample.sunrise (401 # 4)) (Sample.sunset (403 # 4))
              eq_refl eq_refl) as (e & He & Ht & _ & Hl & _).
  exists e. split; [exact He|]. split; [rewrite Ht; reflexivity|].
  apply Hl. reflexivity.
Defined.

(** ** The sensor loops *)

Import Controller.

Section SensorLoops.

Variable World : Type.
Variable onestep : Motor -> Direction -> World -> World.
Variable sensing : Sensor -> World -> bool * World.

Local Abbreviation St := (State World).

Lemma while_over_sensor_loop_eq fuel step_forward motor sensor max_steps :
  forall found steps (s : St),
    while_over_sensor_loop World onestep sensing fuel step_forward motor
                           sensor max_steps found steps s =
    sensor_loop World onestep sensing fuel true step_forward motor sensor
                max_steps found steps s.
Proof.
  induction fuel as [|fuel IH]; intros found steps s; simpl;
    destruct (negb found && (steps <? max_steps)%Z); try reflexivity.
  unfold bind, sensor_sensing.
  destruct (sensing sensor (world s)) as [[|] w]; simpl; apply IH.
Qed.

Lemma until_over_sensor_loop_eq fuel step_forward motor sensor max_steps :
  forall found steps (s : St),
    until_over_sensor_loop World onestep sensing fuel step_forward motor
                           sensor max_steps found steps s =
    sensor_loop World onestep sensing fuel false step_forward motor sensor
                max_steps found steps s.
Proof.
  induction fuel as [|fuel IH]; intros found steps s; simpl;
    destruct (negb found && (steps <? max_steps)%Z); try reflexivity.
  unfold bind, sensor_sensing.
  destruct (sensing sensor (world s)) as [[|] w]; simpl; apply IH.
Qed.

Lemma sensor_loop_found fuel step_on step_forward motor sensor max_steps
    steps (s : St) :
  sensor_loop World onestep sensing fuel step_on step_forward motor sensor
              max_steps true steps s = (Ret (true, steps), s).
Proof. destruct fuel; reflexivity. Qed.

(** A run of the loop entered with [found = False], [steps = c] and
    [r] steps of budget left. *)
Lemma sensor_loop_run step_on step_forward motor sensor max_steps :
  forall (r fuel : nat) (c : Z) (s : St),
    (S r <= fuel)%nat -> max_steps = (c + Z.of_nat r)%Z ->
    exists (found : bool) (k : nat) (s' : St),
      sensor_loop World onestep sensing fuel step_on step_forward motor sensor
                  max_steps false c s
        = (Ret (found, (c + Z.of_nat k)%Z), s') /\
      (k <= r)%nat /\
      issued s' = issued s ++ repeat (motor, direction_of step_forward) k /\
      (forall j, (j < k)%nat ->
         reading World onestep sensing j motor (direction_of step_forward)
                 sensor (world s) = step_on) /\
      (found = true ->
         (k < r)%nat /\
         reading World onestep sensing k motor (direction_of step_forward)
                 sensor (world s) = negb step_on) /\
      (found = false -> k = r).
Proof.
  induction r as [|r IH]; intros fuel c s Hfuel Hmax.
  - exists false, O, s. simpl Z.of_nat in *. rewrite Z.add_0_r in *.
    subst max_steps. destruct fuel; simpl; rewrite Z.ltb_irrefl; simpl.
    all: repeat split; auto; try lia; try discriminate;
      try (rewrite app_nil_r; reflexivity).
  - destruct fuel as [|fuel]; [lia|].
    assert (Hlt : (c <? max_steps)%Z = true) by (apply Z.ltb_lt; lia).
    cbn [sensor_loop negb andb]. rewrite Hlt.
    unfold bind at 1. unfold sensor_sensing at 1.
    destruct (sensing sensor (world s)) as [b w] eqn:E.
    destruct (Bool.eqb b step_on) eqn:Eb.
    + apply eqb_prop in Eb.
      unfold bind at 1. unfold motor_onestep at 1. cbn [world issued].
      destruct (IH fuel (c + 1)%Z
                  (mkState (onestep motor (direction_of step_forward) w)
                           (issued s ++ [(motor, direction_of step_forward)])))
        as (found & k & s' & Hrun & Hk & Hiss & Hread & Ht & Hf);
        [lia|lia|].
      exists found, (S k), s'.
      replace (c + Z.of_nat (S k))%Z with (c + 1 + Z.of_nat k)%Z by lia.
      split; [exact Hrun|]. split; [lia|]. split.
      { rewrite Hiss. cbn [issued repeat]. rewrite <- app_assoc. reflexivity. }
      cbn [world] in Hread, Ht.
      assert (Hshift : forall j,
                 reading World onestep sensing (S j) motor
                         (direction_of step_forward) sensor (world s) =
                 reading World onestep sensing j motor
                         (direction_of step_forward) sensor
                         (onestep motor (direction_of step_forward) w)).
      { intro j. unfold reading. cbn [world_after]. rewrite E. reflexivity. }
      split; [|split].
      * intros [|j] Hj.
        -- unfold reading. cbn [world_after]. rewrite E. exact Eb.
        -- rewrite Hshift. apply Hread. lia.
      * intro Hfound. destruct (Ht Hfound). rewrite Hshift. split; [lia|auto].
      * intro Hfound. rewrite (Hf Hfound). reflexivity.
    + exists true, O, (mkState w (issued s)).
      rewrite sensor_loop_found. simpl Z.of_nat. rewrite Z.add_0_r.
      split; [reflexivity|]. split; [lia|]. split.
      { cbn [issued repeat]. rewrite app_nil_r. reflexivity. }
      split; [intros j Hj; lia|]. split; [|discriminate].
      intros _. split; [lia|].
      unfold reading. cbn [world_after]. rewrite E. cbn [fst].
      destruct b, step_on; simpl in *; congruence.
Qed.

Lemma sensor_loop_fuel_mono step_on step_forward motor sensor max_steps :
  forall (fuel fuel' : nat) found steps (s s' : St) v,
    (fuel <= fuel')%nat ->
    sensor_loop World onestep sensing fuel step_on step_forward motor sensor
                max_steps found steps s = (Ret v, s') ->
    sensor_loop World onestep sensing fuel' step_on step_forward motor sensor
                max_steps found steps s = (Ret v, s').
Proof.
  induction fuel as [|fuel IH]; intros fuel' found steps s s' v Hle.
  - destruct fuel'; simpl;
      destruct (negb found && (steps <? max_steps)%Z); auto;
      unfold out_of_fuel; discriminate.
  - destruct fuel' as [|fuel']; [lia|]. simpl.
    destruct (negb found && (steps <? max_steps)%Z); auto.
    unfold bind at 1 3. unfold sensor_sensing.
    destruct (sensing sensor (world s)) as [b w].
    destruct (Bool.eqb b step_on).
    + unfold bind, motor_onestep. apply IH. lia.
    + apply IH. lia.
Qed.

Lemma sensor_loop_bounded step_on step_forward motor sensor max_steps
    (s : St) :
  (0 <= max_steps)%Z ->
  exists (found : bool) (steps : Z) (s' : St),
    sensor_loop World onestep sensing (loop_fuel max_steps) step_on
                step_forward motor sensor max_steps false 0 s
      = (Ret (found, steps), s') /\
    (forall fuel, (loop_fuel max_steps <= fuel)%nat ->
       sensor_loop World onestep sensing fuel step_on step_forward motor
                   sensor max_steps false 0 s = (Ret (found, steps), s')) /\
    (0 <= steps <= max_steps)%Z /\
    issued s' =
      issued s ++ repeat (motor, direction_of step_forward) (Z.to_nat steps) /\
    (found = false <->
       forall k, (k < Z.to_nat max_steps)%nat ->
         reading World onestep sensing k motor (direction_of step_forward)
                 sensor (world s) = step_on) /\
    (found = false -> steps = max_steps) /\
    (found = true ->
       reading World onestep sensing (Z.to_nat steps) motor
               (direction_of step_forward) sensor (world s) = negb step_on /\
       forall k, (k < Z.to_nat steps)%nat ->
         reading World onestep sensing k motor (direction_of step_forward)
                 sensor (world s) = step_on).
Proof.
  intro Hmax.
  destruct (sensor_loop_run step_on step_forward motor sensor max_steps
              (Z.to_nat max_steps) (loop_fuel max_steps) 0%Z s)
    as (found & k & s' & Hrun & Hk & Hiss & Hread & Ht & Hf);
    [unfold loop_fuel; lia|lia|].
  rewrite Z.add_0_l in Hrun.
  exists found, (Z.of_nat k), s'. rewrite Nat2Z.id.
  split; [exact Hrun|]. split.
  { intros fuel Hfuel.
    apply (sensor_loop_fuel_mono _ _ _ _ _ (loop_fuel max_steps)); auto. }
  split; [lia|]. split; [exact Hiss|]. split; [|split].
  - split.
    + intros Hfound j Hj. apply Hread. rewrite (Hf Hfound). exact Hj.
    + intro Hall. destruct found; [|reflexivity].
      destruct (Ht eq_refl) as [Hlt Hneg].
      rewrite (Hall k Hlt) in Hneg. destruct step_on; discriminate.
  - intro Hfound. rewrite (Hf Hfound). lia.
  - intro Hfound. destruct (Ht Hfound) as [_ Hneg]. split; auto.
Qed.

(** C10.  For a budget [max_steps >= 0] and any behaviour of the sensor and
    the world, [step_while_over_sensor] and [step_until_over_sensor] return
    (with the iteration budget of the model, and with any larger one) a pair
    [(found, steps)] with [0 <= steps <= max_steps], having issued exactly
    [steps] step commands; [found] is false exactly when the sensor kept its
    reading on each of the [max_steps] rounds, and then
    [steps = max_steps]; when [found] is true the reading changed on round
    [steps], for the first time. *)
Theorem step_sensor_loops_bounded (step_forward : bool) (motor : Motor)
    (sensor : Sensor) (max_steps : Z) (s : St) :
  (0 <= max_steps)%Z ->
  let d := direction_of step_forward in
  let read k := reading World onestep sensing k motor d sensor (world s) in
  (exists (found : bool) (steps : Z) (s' : St),
     step_while_over_sensor World onestep sensing step_forward motor sensor
                            max_steps s = (Ret (found, steps), s') /\
     (forall fuel, (loop_fuel max_steps <= fuel)%nat ->
        while_over_sensor_loop World onestep sensing fuel step_forward motor
                               sensor max_steps false 0 s
          = (Ret (found, steps), s')) /\
     (0 <= steps <= max_steps)%Z /\
     issued s' = issued s ++ repeat (motor, d) (Z.to_nat steps) /\
     (found = false <->
        forall k, (k < Z.to_nat max_steps)%nat -> read k = true) /\
     (found = false -> steps = max_steps) /\
     (found = true ->
        read (Z.to_nat steps) = false /\
        forall k, (k < Z.to_nat steps)%nat -> read k = true)) /\
  (exists (found : bool) (steps : Z) (s' : St),
     step_until_over_sensor World onestep sensing step_forward motor sensor
                            max_steps s = (Ret (found, steps), s') /\
     (forall fuel, (loop_fuel max_steps <= fuel)%nat ->
        until_over_sensor_loop World onestep sensing fuel step_forward motor
                               sensor max_steps false 0 s
          = (Ret (found, steps), s')) /\
     (0 <= steps <= max_steps)%Z /\
     issued s' = issued s ++ repeat (motor, d) (Z.to_nat steps) /\
     (found = false <->
        forall k, (k < Z.to_nat max_steps)%nat -> read k = false) /\
     (found = false -> steps = max_steps) /\
     (found = true ->
        read (Z.to_nat steps) = true /\
        forall k, (k < Z.to_nat steps)%nat -> read k = false)).
Proof.
  intros Hmax d read. subst d read. split.
  - destruct (sensor_loop_bounded true step_forward motor sensor max_steps s
                Hmax) as (found & steps & s' & Hrun & Hfuel & H).
    exists found, steps, s'. unfold step_while_over_sensor.
    rewrite while_over_sensor_loop_eq. split; [exact Hrun|].
    split; [|exact H].
    intros fuel Hle. rewrite while_over_sensor_loop_eq. auto.
  - destruct (sensor_loop_bounded false step_forward motor sensor max_steps s
                Hmax) as (found & steps & s' & Hrun & Hfuel & H).
    exists found, steps, s'. unfold step_until_over_sensor.
    rewrite until_over_sensor_loop_eq. split; [exact Hrun|].
    split; [|exact H].
    intros fuel Hle. rewrite until_over_sensor_loop_eq. auto.
Qed.

End SensorLoops.

(** ** Homing and the stepping loop *)

Lemma int_of_Q_floor (q : Q) : 0 <= q -> int_of_Q q = Qfloor q.
Proof.
  destruct q as [n d]. unfold Qle, int_of_Q, Qfloor. simpl. intro H.
  apply Z.quot_div_nonneg; lia.
Qed.

Lemma int_of_half (n : Z) : (0 <= n)%Z -> int_of_Q (inject_Z n / 2) = (n / 2)%Z.
Proof.
  intro H. unfold int_of_Q, inject_Z, Qdiv, Qmult, Qinv. simpl.
  rewrite Z.mul_1_r. apply Z.quot_div_nonneg; lia.
Qed.

Section ControllerFacts.

Variable World : Type.
Variable onestep : Motor -> Direction -> World -> World.
Variable sensing : Sensor -> World -> bool * World.

Local Abbreviation St := (State World).
Local Abbreviation M := (Controller.M World).

Lemma bind_ret {A B : Type} (m : M A) (k : A -> M B) (s s' : St) (a : A) :
  m s = (Ret a, s') -> bind World m k s = k a s'.
Proof. intro H. unfold bind. rewrite H. reflexivity. Qed.

Lemma bind_exit {A B : Type} (m : M A) (k : A -> M B) (s s' : St) code :
  m s = (Exit code, s') -> bind World m k s = (Exit code, s').
Proof. intro H. unfold bind. rewrite H. reflexivity. Qed.

Lemma for_range_run (n : nat) (motor : Motor) (d : Direction) (s : St) :
  exists s',
    for_range World n (motor_onestep World onestep motor d) s = (Ret tt, s') /\
    issued s' = issued s ++ repeat (motor, d) n.
Proof.
  revert s. induction n as [|n IH]; intro s.
  - exists s. split; [reflexivity|]. simpl. rewrite app_nil_r. reflexivity.
  - cbn [for_range]. unfold bind at 1. unfold motor_onestep at 1.
    destruct (IH (mkState (onestep motor d (world s))
                          (issued s ++ [(motor, d)]))) as (s' & Hrun & Hiss).
    exists s'. split; [exact Hrun|]. rewrite Hiss. cbn [issued repeat].
    rewrite <- app_assoc. reflexivity.
Qed.

Lemma take_steps_run (forward : bool) (motor : Motor) (steps : Z) (s : St) :
  exists s',
    take_steps World onestep forward motor steps s = (Ret tt, s') /\
    issued s' =
      issued s ++ repeat (motor, direction_of forward) (Z.to_nat steps).
Proof. unfold take_steps. apply for_range_run. Qed.

Lemma step_while_over_sensor_run step_forward motor sensor max_steps (s : St) :
  (0 <= max_steps)%Z ->
  exists (found : bool) (steps : Z) (s' : St),
    step_while_over_sensor World onestep sensing step_forward motor sensor
                           max_steps s = (Ret (found, steps), s') /\
    (0 <= steps <= max_steps)%Z /\
    issued s' =
      issued s ++ repeat (motor, direction_of step_forward) (Z.to_nat steps) /\
    (found = false -> steps = max_steps) /\
    (found = false <->
       forall k, (k < Z.to_nat max_steps)%nat ->
         reading World onestep sensing k motor (direction_of step_forward)
                 sensor (world s) = true).
Proof.
  intro Hmax.
  destruct (sensor_loop_bounded World onestep sensing true step_forward motor
              sensor max_steps s Hmax)
    as (found & steps & s' & Hrun & _ & Hb & Hiss & Hiff & Hf & _).
  exists found, steps, s'. unfold step_while_over_sensor.
  rewrite while_over_sensor_loop_eq. auto.
Qed.

Lemma step_until_over_sensor_run step_forward motor sensor max_steps (s : St) :
  (0 <= max_steps)%Z ->
  exists (found : bool) (steps : Z) (s' : St),
    step_until_over_sensor World onestep sensing step_forward motor sensor
                           max_steps s = (Ret (found, steps), s') /\
    (0 <= steps <= max_steps)%Z /\
    issued s' =
      issued s ++ repeat (motor, direction_of step_forward) (Z.to_nat steps) /\
    (found = false -> steps = max_steps) /\
    (found = false <->
       forall k, (k < Z.to_nat max_steps)%nat ->
         reading World onestep sensing k motor (direction_of step_forward)
                 sensor (world s) = false).
Proof.
  intro Hmax.
  destruct (sensor_loop_bounded World onestep sensing false step_forward motor
              sensor max_steps s Hmax)
    as (found & steps & s' & Hrun & _ & Hb & Hiss & Hiff & Hf & _).
  exists found, steps, s'. unfold step_until_over_sensor.
  rewrite until_over_sensor_loop_eq. auto.
Qed.

(** The four phases of [scan], one after the other: each of the first three
    either fails (its budget is used up with the sensor reading unchanged),
    and [scan] returns [False] in the state that phase left, or hands over
    to the next. *)
Lemma scan_phases (forward : bool) (motor : Motor) (sensor : Sensor)
    (max_scan_steps max_sensor_steps : Z) (s : St) :
  (0 <= max_scan_steps)%Z -> (0 <= max_sensor_steps)%Z ->
  let back := direction_of (negb forward) in
  let ahead := direction_of forward in
  let read d k w := reading World onestep sensing k motor d sensor w in
  let run := scan World onestep sensing forward motor sensor max_scan_steps
                  max_sensor_steps s in
  exists f1 n1 s1,
    step_while_over_sensor World onestep sensing (negb forward) motor sensor
                           max_sensor_steps s = (Ret (f1, n1), s1) /\
    (0 <= n1 <= max_sensor_steps)%Z /\
    issued s1 = issued s ++ repeat (motor, back) (Z.to_nat n1) /\
    (f1 = false <->
       forall k, (k < Z.to_nat max_sensor_steps)%nat ->
         read back k (world s) = true) /\
    (f1 = false -> n1 = max_sensor_steps /\ run = (Ret false, s1)) /\
    (f1 = true ->
     exists f2 n2 s2,
       step_until_over_sensor World onestep sensing forward motor sensor
                              max_scan_steps s1 = (Ret (f2, n2), s2) /\
       (0 <= n2 <= max_scan_steps)%Z /\
       issued s2 = issued s1 ++ repeat (motor, ahead) (Z.to_nat n2) /\
       (f2 = false <->
          forall k, (k < Z.to_nat max_scan_steps)%nat ->
            read ahead k (world s1) = false) /\
       (f2 = false -> n2 = max_scan_steps /\ run = (Ret false, s2)) /\
       (f2 = true ->
        exists f3 n3 s3,
          step_while_over_sensor World onestep sensing forward motor sensor
                                 max_sensor_steps s2 = (Ret (f3, n3), s3) /\
          (0 <= n3 <= max_sensor_steps)%Z /\
          issued s3 = issued s2 ++ repeat (motor, ahead) (Z.to_nat n3) /\
          (f3 = false <->
             forall k, (k < Z.to_nat max_sensor_steps)%nat ->
               read ahead k (world s2) = true) /\
          (f3 = false -> n3 = max_sensor_steps /\ run = (Ret false, s3)) /\
          (f3 = true ->
           exists s4,
             run = (Ret true, s4) /\
             issued s4 =
               issued s3 ++ repeat (motor, back) (Z.to_nat (n3 / 2))))).
Proof.
  intros Hscan Hsensor back ahead read run. subst back ahead read run.
  unfold scan.
  destruct (step_while_over_sensor_run (negb forward) motor sensor
              max_sensor_steps s Hsensor)
    as (f1 & n1 & s1 & Hr1 & Hb1 & Hi1 & Hf1 & Hiff1).
  exists f1, n1, s1. rewrite (bind_ret _ _ _ _ _ Hr1). cbn [fst snd].
  repeat (split; [assumption|]). split.
  { intros ->. split; auto. }
  intros ->. cbn [negb].
  destruct (step_until_over_sensor_run forward motor sensor
              max_scan_steps s1 Hscan)
    as (f2 & n2 & s2 & Hr2 & Hb2 & Hi2 & Hf2 & Hiff2).
  exists f2, n2, s2. rewrite (bind_ret _ _ _ _ _ Hr2). cbn [fst snd].
  repeat (split; [assumption|]). split.
  { intros ->. split; auto. }
  intros ->. cbn [negb].
  destruct (step_while_over_sensor_run forward motor sensor
              max_sensor_steps s2 Hsensor)
    as (f3 & n3 & s3 & Hr3 & Hb3 & Hi3 & Hf3 & Hiff3).
  exists f3, n3, s3. rewrite (bind_ret _ _ _ _ _ Hr3). cbn [fst snd].
  repeat (split; [assumption|]). split.
  { intros ->. split; auto. }
  intros ->. cbn [negb].
  destruct (take_steps_run (negb forward) motor
              (int_of_Q (inject_Z n3 / 2)) s3) as (s4 & Hr4 & Hi4).
  exists s4. rewrite (bind_ret _ _ _ _ _ Hr4).
  split; [reflexivity|]. rewrite Hi4, int_of_half by lia. reflexivity.
Qed.

Lemma scan_returns (forward : bool) (motor : Motor) (sensor : Sensor)
    (max_scan_steps max_sensor_steps : Z) (s : St) :
  (0 <= max_scan_steps)%Z -> (0 <= max_sensor_steps)%Z ->
  exists ok s',
    scan World onestep sensing forward motor sensor max_scan_steps
         max_sensor_steps s = (Ret ok, s').
Proof.
  intros H1 H2.
  destruct (scan_phases forward motor sensor max_scan_steps max_sensor_steps
              s H1 H2) as (f1 & n1 & s1 & _ & _ & _ & _ & Hf1 & Ht1).
  destruct f1; [|destruct (Hf1 eq_refl); eauto].
  destruct (Ht1 eq_refl) as (f2 & n2 & s2 & _ & _ & _ & _ & Hf2 & Ht2).
  destruct f2; [|destruct (Hf2 eq_refl); eauto].
  destruct (Ht2 eq_refl) as (f3 & n3 & s3 & _ & _ & _ & _ & Hf3 & Ht3).
  destruct f3; [|destruct (Hf3 eq_refl); eauto].
  destruct (Ht3 eq_refl) as (s4 & H4 & _). eauto.
Qed.

Lemma validate_orbit_degrees_ok (degrees : Q) (s : St) :
  0 <= degrees -> degrees <= 180 ->
  validate_orbit_degrees World degrees s = (Ret tt, s).
Proof.
  intros H0 H1. unfold validate_orbit_degrees.
  apply Qle_bool_iff in H0, H1. rewrite H0, H1. reflexivity.
Qed.

Lemma validate_rotation_degrees_ok (degrees : Q) (s : St) :
  0 <= degrees -> degrees <= 360 ->
  validate_rotation_degrees World degrees s = (Ret tt, s).
Proof.
  intros H0 H1. unfold validate_rotation_degrees.
  apply Qle_bool_iff in H0, H1. rewrite H0, H1. reflexivity.
Qed.

Lemma validate_orbit_degrees_exit (degrees : Q) (s : St) :
  degrees < 0 \/ 180 < degrees ->
  validate_orbit_degrees World degrees s = (Exit 1, s).
Proof.
  intro H. unfold validate_orbit_degrees.
  destruct (Qle_bool 0 degrees) eqn:E0; [|reflexivity].
  destruct (Qle_bool degrees 180) eqn:E1; [|reflexivity].
  apply Qle_bool_iff in E0, E1. lra.
Qed.

Lemma validate_rotation_degrees_exit (degrees : Q) (s : St) :
  degrees < 0 \/ 360 < degrees ->
  validate_rotation_degrees World degrees s = (Exit 1, s).
Proof.
  intro H. unfold validate_rotation_degrees.
  destruct (Qle_bool 0 degrees) eqn:E0; [|reflexivity].
  destruct (Qle_bool degrees 360) eqn:E1; [|reflexivity].
  apply Qle_bool_iff in E0, E1. lra.
Qed.

(** Each validator either lets the program continue in the same state or
    exits with code 1 in the same state. *)
Lemma validate_orbit_degrees_cases (degrees : Q) (s : St) :
  (0 <= degrees /\ degrees <= 180 /\
   validate_orbit_degrees World degrees s = (Ret tt, s)) \/
  ((degrees < 0 \/ 180 < degrees) /\
   validate_orbit_degrees World degrees s = (Exit 1, s)).
Proof.
  destruct (Qlt_le_dec degrees 0) as [H0|H0];
    [right; split; [|apply validate_orbit_degrees_exit]; auto|].
  destruct (Qlt_le_dec 180 degrees) as [H1|H1];
    [right; split; [|apply validate_orbit_degrees_exit]; auto|].
  left. repeat split; auto. apply validate_orbit_degrees_ok; auto.
Qed.

Lemma validate_rotation_degrees_cases (degrees : Q) (s : St) :
  (0 <= degrees /\ degrees <= 360 /\
   validate_rotation_degrees World degrees s = (Ret tt, s)) \/
  ((degrees < 0 \/ 360 < degrees) /\
   validate_rotation_degrees World degrees s = (Exit 1, s)).
Proof.
  destruct (Qlt_le_dec degrees 0) as [H0|H0];
    [right; split; [|apply validate_rotation_degrees_exit]; auto|].
  destruct (Qlt_le_dec 360 degrees) as [H1|H1];
    [right; split; [|apply validate_rotation_degrees_exit]; auto|].
  left. repeat split; auto. apply validate_rotation_degrees_ok; auto.
Qed.

Lemma steps_and_floor_nonneg (degrees : Q) :
  0 <= degrees ->
  steps_and_floor degrees =
    (degrees / DEGREES_PER_STEP, Qfloor (degrees / DEGREES_PER_STEP)).
Proof.
  intro H. unfold steps_and_floor. rewrite int_of_Q_floor; [reflexivity|].
  apply Qle_shift_div_l; [reflexivity|]. lra.
Qed.

(** The signed step difference of the orbit axis, as issued. *)
Lemma update_orbit_run (target current : Z) (s : St) :
  exists s',
    update_orbit World onestep target current s = (Ret target, s') /\
    issued s' =
      issued s ++
      repeat (steppers 0,
              if (0 <? target - current)%Z then FORWARD else BACKWARD)
             (Z.to_nat (Z.abs (target - current))).
Proof.
  unfold update_orbit. destruct (Z.eqb_spec target current) as [->|Hne].
  - exists s. cbn [negb]. split; [reflexivity|].
    rewrite Z.sub_diag. simpl. rewrite app_nil_r. reflexivity.
  - cbn [negb].
    destruct (take_steps_run (target >? current)%Z (steppers 0)
                (Z.abs (target - current)) s) as (s' & Hrun & Hiss).
    exists s'. rewrite (bind_ret _ _ _ _ _ Hrun). split; [reflexivity|].
    rewrite Hiss. f_equal. f_equal. f_equal. unfold direction_of.
    rewrite Z.gtb_ltb.
    destruct (Z.ltb_spec current target), (Z.ltb_spec 0 (target - current));
      try reflexivity; lia.
Qed.

(** The step count of the rotation axis, as issued. *)
Lemma update_rotation_run (target current : Z) (s : St) :
  exists s',
    update_rotation World onestep target current s = (Ret target, s') /\
    issued s' =
      issued s ++
      repeat (steppers 1, FORWARD)
             (Z.to_nat (if (target - current <? 0)%Z
                        then STEPS_PER_REV + (target - current)
                        else target - current)).
Proof.
  unfold update_rotation. destruct (Z.eqb_spec target current) as [->|Hne].
  - exists s. cbn [negb]. split; [reflexivity|].
    rewrite Z.sub_diag. simpl. rewrite app_nil_r. reflexivity.
  - cbn [negb].
    destruct (take_steps_run true (steppers 1)
                (if (target - current <? 0)%Z
                 then STEPS_PER_REV + (target - current)
                 else target - current)%Z s) as (s' & Hrun & Hiss).
    exists s'. rewrite (bind_ret _ _ _ _ _ Hrun). split; [reflexivity|].
    exact Hiss.
Qed.

(** One iteration of the loop on a model within the validated ranges. *)
Lemma main_loop_body_run (em : EarthModel) (o r : Z) (s : St) :
  0 <= orbit_degrees em -> orbit_degrees em <= 180 ->
  0 <= rotation_degrees em -> rotation_degrees em <= 360 ->
  let o' := Qfloor (orbit_degrees em / DEGREES_PER_STEP) in
  let r' := Qfloor (rotation_degrees em / DEGREES_PER_STEP) in
  exists s1 s2,
    update_orbit World onestep o' o s = (Ret o', s1) /\
    update_rotation World onestep r' r s1 = (Ret r', s2) /\
    main_loop_body World onestep em o r s = (Ret (o', r'), s2).
Proof.
  intros Ho0 Ho1 Hr0 Hr1 o' r'. subst o' r'.
  destruct (update_orbit_run (Qfloor (orbit_degrees em / DEGREES_PER_STEP))
              o s) as (s1 & Hu1 & _).
  destruct (update_rotation_run
              (Qfloor (rotation_degrees em / DEGREES_PER_STEP)) r s1)
    as (s2 & Hu2 & _).
  exists s1, s2. split; [exact Hu1|]. split; [exact Hu2|].
  unfold main_loop_body.
  rewrite (bind_ret _ _ _ _ _ (validate_orbit_degrees_ok _ s Ho0 Ho1)).
  rewrite (bind_ret _ _ _ _ _ (validate_rotation_degrees_ok _ s Hr0 Hr1)).
  rewrite !steps_and_floor_nonneg by assumption. cbn [snd].
  rewrite (bind_ret _ _ _ _ _ Hu1), (bind_ret _ _ _ _ _ Hu2). reflexivity.
Qed.

(** The first sample on a model within the validated ranges: both axes are
    driven forward from zero to their target steps. *)
Lemma main_position_run (em : EarthModel) (s : St) :
  0 <= orbit_degrees em -> orbit_degrees em <= 180 ->
  0 <= rotation_degrees em -> rotation_degrees em <= 360 ->
  let o' := Qfloor (orbit_degrees em / DEGREES_PER_STEP) in
  let r' := Qfloor (rotation_degrees em / DEGREES_PER_STEP) in
  exists s',
    main_position World onestep em s = (Ret (o', r'), s') /\
    issued s' =
      issued s ++ repeat (steppers 0, FORWARD) (Z.to_nat o')
               ++ repeat (steppers 1, FORWARD) (Z.to_nat r').
Proof.
  intros Ho0 Ho1 Hr0 Hr1 o' r'. subst o' r'.
  destruct (take_steps_run true (steppers 0)
              (Qfloor (orbit_degrees em / DEGREES_PER_STEP)) s)
    as (s1 & Ht1 & Hi1).
  destruct (take_steps_run true (steppers 1)
              (Qfloor (rotation_degrees em / DEGREES_PER_STEP)) s1)
    as (s2 & Ht2 & Hi2).
  exists s2. unfold main_position.
  rewrite (bind_ret _ _ _ _ _ (validate_orbit_degrees_ok _ s Ho0 Ho1)).
  rewrite (bind_ret _ _ _ _ _ (validate_rotation_degrees_ok _ s Hr0 Hr1)).
  rewrite !steps_and_floor_nonneg by assumption. cbn [snd].
  rewrite (bind_ret _ _ _ _ _ Ht1), (bind_ret _ _ _ _ _ Ht2).
  split; [reflexivity|]. rewrite Hi2, Hi1. rewrite <- app_assoc. reflexivity.
Qed.

(** A model outside the validated ranges stops both the first sample and an
    iteration of the loop with exit code 1, in the state they started in. *)
Lemma out_of_range_exits (em : EarthModel) (o r : Z) (s : St) :
  orbit_degrees em < 0 \/ 180 < orbit_degrees em \/
  rotation_degrees em < 0 \/ 360 < rotation_degrees em ->
  main_loop_body World onestep em o r s = (Exit 1, s) /\
  main_position World onestep em s = (Exit 1, s).
Proof.
  intro H. unfold main_loop_body, main_position.
  destruct (validate_orbit_degrees_cases (orbit_degrees em) s)
    as [(Ho0 & Ho1 & Hv)|(Ho & Hv)].
  - rewrite !(bind_ret _ _ _ _ _ Hv).
    assert (Hr : rotation_degrees em < 0 \/ 360 < rotation_degrees em)
      by (destruct H as [H|[H|[H|H]]]; auto; lra).
    rewrite !(bind_exit _ _ _ _ _
                (validate_rotation_degrees_exit _ s Hr)). auto.
  - rewrite !(bind_exit _ _ _ _ _ Hv). auto.
Qed.


(** C9.  Degrees per step is 360 / STEPS_PER_REV; for validated (hence
    non-negative) degrees the target step of [steps_and_floor] is
    floor(degrees / DEGREES_PER_STEP), and these are the steps an iteration
    of the loop moves to.  The orbit-axis update issues |delta| steps for the
    plain difference delta = target - current, forward when delta is
    positive and backward when it is negative, without wrap-around; from
    current step 10 to target step 3 the difference is -7 and seven backward
    steps are issued.  An iteration of the loop of [main] on a validated
    model does exactly this with target = floor(orbit degrees / degrees per
    step) and the tracked orbit step: its commands are those of the orbit
    update, followed by forward steps of the rotation motor only. *)
Theorem orbit_axis_update :
  DEGREES_PER_STEP == 360 / inject_Z STEPS_PER_REV /\
  (forall degrees : Q,
     0 <= degrees ->
     steps_and_floor degrees =
       (degrees / DEGREES_PER_STEP, Qfloor (degrees / DEGREES_PER_STEP))) /\
  (forall (em : EarthModel) (o r o' r' : Z) (s s' : St),
     main_loop_body World onestep em o r s = (Ret (o', r'), s') ->
     o' = Qfloor (orbit_degrees em / DEGREES_PER_STEP) /\
     r' = Qfloor (rotation_degrees em / DEGREES_PER_STEP)) /\
  (forall (target current : Z) (s : St),
     let delta := (target - current)%Z in
     exists s',
       update_orbit World onestep target current s = (Ret target, s') /\
       issued s' =
         issued s ++
         repeat (steppers 0, if (0 <? delta)%Z then FORWARD else BACKWARD)
                (Z.to_nat (Z.abs delta))) /\
  (forall s : St,
     (3 - 10 = -7)%Z /\
     exists s',
       update_orbit World onestep 3 10 s = (Ret 3%Z, s') /\
       issued s' = issued s ++ repeat (steppers 0, BACKWARD) 7) /\
  (forall (em : EarthModel) (o r : Z) (s : St),
     0 <= orbit_degrees em -> orbit_degrees em <= 180 ->
     0 <= rotation_degrees em -> rotation_degrees em <= 360 ->
     let target := Qfloor (orbit_degrees em / DEGREES_PER_STEP) in
     let delta := (target - o)%Z in
     exists (s1 s' : St) (rotation_steps : nat),
       update_orbit World onestep target o s = (Ret target, s1) /\
       issued s1 =
         issued s ++
         repeat (steppers 0, if (0 <? delta)%Z then FORWARD else BACKWARD)
                (Z.to_nat (Z.abs delta)) /\
       main_loop_body World onestep em o r s =
         (Ret (target, Qfloor (rotation_degrees em / DEGREES_PER_STEP)), s') /\
       issued s' = issued s1 ++ repeat (steppers 1, FORWARD) rotation_steps).
Proof.
  split; [reflexivity|]. split; [exact steps_and_floor_nonneg|].
  split; [|split; [|split]].
  - intros em o r o' r' s s' Hrun.
    destruct (validate_orbit_degrees_cases (orbit_degrees em) s)
      as [(Ho0 & Ho1 & _)|(Ho & _)];
      [destruct (validate_rotation_degrees_cases (rotation_degrees em) s)
         as [(Hr0 & Hr1 & _)|(Hr & _)]|].
    + destruct (main_loop_body_run em o r s Ho0 Ho1 Hr0 Hr1)
        as (s1 & s2 & _ & _ & Hbody).
      rewrite Hbody in Hrun. injection Hrun as <- <- _. auto.
    + destruct (out_of_range_exits em o r s) as [Hbody _]; [tauto|].
      rewrite Hbody in Hrun. discriminate.
    + destruct (out_of_range_exits em o r s) as [Hbody _]; [tauto|].
      rewrite Hbody in Hrun. discriminate.
  - intros target current s delta. apply update_orbit_run.
  - intro s. split; [reflexivity|]. apply (update_orbit_run 3 10 s).
  - intros em o r s Ho0 Ho1 Hr0 Hr1 target delta. subst target delta.
    destruct (main_loop_body_run em o r s Ho0 Ho1 Hr0 Hr1)
      as (s1 & s2 & Hu1 & Hu2 & Hbody).
    destruct (update_orbit_run
                (Qfloor (orbit_degrees em / DEGREES_PER_STEP)) o s)
      as (s1' & Hu1' & Hi1).
    rewrite Hu1 in Hu1'. injection Hu1' as <-.
    destruct (update_rotation_run
                (Qfloor (rotation_degrees em / DEGREES_PER_STEP)) r s1)
      as (s2' & Hu2' & Hi2).
    rewrite Hu2 in Hu2'. injection Hu2' as <-.
    exists s1, s2. eexists.
    split; [exact Hu1|]. split; [exact Hi1|]. split; [exact Hbody|].
    exact Hi2.
Qed.

(** C5 (as amended).  A sampled model whose orbit degrees lie outside
    [0, 180] or whose rotation degrees lie outside the closed range [0, 360]
    ends the process with exit code 1 before any step command is issued for
    that sample: the first sample and an iteration of the loop both exit in
    the state they started in, and so do [main] (after the two calibration
    scans) and the loop on any list of samples that starts with it. *)
Theorem out_of_range_is_fatal (em : EarthModel) (o r : Z)
    (rest : list EarthModel) (s : St) :
  orbit_degrees em < 0 \/ 180 < orbit_degrees em \/
  rotation_degrees em < 0 \/ 360 < rotation_degrees em ->
  main_loop_body World onestep em o r s = (Exit 1, s) /\
  main_loop World onestep (em :: rest) o r s = (Exit 1, s) /\
  main_position World onestep em s = (Exit 1, s) /\
  exists ok1 s1 ok2 s2,
    scan World onestep sensing false (steppers 0) (sensors 0) 100 50 s
      = (Ret ok1, s1) /\
    scan World onestep sensing true (steppers 1) (sensors 1) 200 50 s1
      = (Ret ok2, s2) /\
    main World onestep sensing (em :: rest) s = (Exit 1, s2).
Proof.
  intro H. destruct (out_of_range_exits em o r s H) as [Hbody Hpos].
  split; [exact Hbody|]. split; [|split; [exact Hpos|]].
  - cbn [main_loop]. apply bind_exit. exact Hbody.
  - destruct (scan_returns false (steppers 0) (sensors 0) 100 50 s)
      as (ok1 & s1 & H1); [lia|lia|].
    destruct (scan_returns true (steppers 1) (sensors 1) 200 50 s1)
      as (ok2 & s2 & H2); [lia|lia|].
    exists ok1, s1, ok2, s2. split; [exact H1|]. split; [exact H2|].
    unfold main. rewrite (bind_ret _ _ _ _ _ H1), (bind_ret _ _ _ _ _ H2).
    apply bind_exit. apply (out_of_range_exits em o r s2 H).
Qed.

(** C4 (as amended).  [scan] runs the phases BACK_OFF, SEEK, CLEAR and
    CENTER in this order: BACK_OFF steps against the scan direction while
    the sensor senses, SEEK steps in the scan direction until it senses,
    CLEAR goes on in that direction while it senses, and CENTER steps back
    floor(n3 / 2) steps for the n3 steps of CLEAR.  When one of the first
    three phases uses up its budget with the sensor reading unchanged,
    [scan] issues nothing further and returns [False].  [main] does not look
    at what [scan] returns: whatever the two calibrations return, a first
    sample within the validated ranges is positioned absolutely and the
    process does not exit. *)
Theorem calibration_phases (forward : bool) (motor : Motor) (sensor : Sensor)
    (max_scan_steps max_sensor_steps : Z) (em : EarthModel) (s : St) :
  (0 <= max_scan_steps)%Z -> (0 <= max_sensor_steps)%Z ->
  let back := direction_of (negb forward) in
  let ahead := direction_of forward in
  let read d k w := reading World onestep sensing k motor d sensor w in
  let run := scan World onestep sensing forward motor sensor max_scan_steps
                  max_sensor_steps s in
  (exists f1 n1 s1,
    step_while_over_sensor World onestep sensing (negb forward) motor sensor
                           max_sensor_steps s = (Ret (f1, n1), s1) /\
    (0 <= n1 <= max_sensor_steps)%Z /\
    issued s1 = issued s ++ repeat (motor, back) (Z.to_nat n1) /\
    (f1 = false <->
       forall k, (k < Z.to_nat max_sensor_steps)%nat ->
         read back k (world s) = true) /\
    (f1 = false -> n1 = max_sensor_steps /\ run = (Ret false, s1)) /\
    (f1 = true ->
     exists f2 n2 s2,
       step_until_over_sensor World onestep sensing forward motor sensor
                              max_scan_steps s1 = (Ret (f2, n2), s2) /\
       (0 <= n2 <= max_scan_steps)%Z /\
       issued s2 = issued s1 ++ repeat (motor, ahead) (Z.to_nat n2) /\
       (f2 = false <->
          forall k, (k < Z.to_nat max_scan_steps)%nat ->
            read ahead k (world s1) = false) /\
       (f2 = false -> n2 = max_scan_steps /\ run = (Ret false, s2)) /\
       (f2 = true ->
        exists f3 n3 s3,
          step_while_over_sensor World onestep sensing forward motor sensor
                                 max_sensor_steps s2 = (Ret (f3, n3), s3) /\
          (0 <= n3 <= max_sensor_steps)%Z /\
          issued s3 = issued s2 ++ repeat (motor, ahead) (Z.to_nat n3) /\
          (f3 = false <->
             forall k, (k < Z.to_nat max_sensor_steps)%nat ->
               read ahead k (world s2) = true) /\
          (f3 = false -> n3 = max_sensor_steps /\ run = (Ret false, s3)) /\
          (f3 = true ->
           exists s4,
             run = (Ret true, s4) /\
             issued s4 =
               issued s3 ++ repeat (motor, back) (Z.to_nat (n3 / 2)))))) /\
  (0 <= orbit_degrees em -> orbit_degrees em <= 180 ->
   0 <= rotation_degrees em -> rotation_degrees em <= 360 ->
   exists ok1 s1 ok2 s2 s3,
     scan World onestep sensing false (steppers 0) (sensors 0) 100 50 s
       = (Ret ok1, s1) /\
     scan World onestep sensing true (steppers 1) (sensors 1) 200 50 s1
       = (Ret ok2, s2) /\
     main World onestep sensing [em] s = (Ret tt, s3) /\
     issued s3 =
       issued s2
       ++ repeat (steppers 0, FORWARD)
                 (Z.to_nat (Qfloor (orbit_degrees em / DEGREES_PER_STEP)))
       ++ repeat (steppers 1, FORWARD)
                 (Z.to_nat (Qfloor (rotation_degrees em / DEGREES_PER_STEP)))).
Proof.
  intros Hscan Hsensor back ahead read run. split.
  - apply scan_phases; assumption.
  - intros Ho0 Ho1 Hr0 Hr1.
    destruct (scan_returns false (steppers 0) (sensors 0) 100 50 s)
      as (ok1 & s1 & H1); [lia|lia|].
    destruct (scan_returns true (steppers 1) (sensors 1) 200 50 s1)
      as (ok2 & s2 & H2); [lia|lia|].
    destruct (main_position_run em s2 Ho0 Ho1 Hr0 Hr1) as (s3 & Hpos & Hiss).
    exists ok1, s1, ok2, s2, s3. split; [exact H1|]. split; [exact H2|].
    split; [|exact Hiss].
    unfold main. rewrite (bind_ret _ _ _ _ _ H1), (bind_ret _ _ _ _ _ H2).
    rewrite (bind_ret _ _ _ _ _ Hpos). reflexivity.
Qed.

End ControllerFacts.

(** ** The statements on the sample almanac and the test rigs *)

Ltac in_order :=
  unfold ascending; vm_compute;
  repeat (constructor; try discriminate).

Lemma sample_seasons_ascending : ascending Sample.seasons.
Proof. in_order. Qed.

Lemma find_surrounding_events_spec_witness :
  ascending Sample.seasons /\
  find_surrounding_events Sample.seasons 200 =
    Some (Sample.season EVENT_SUMMER_SOLSTICE "Summer Solstice" 180,
          Sample.season EVENT_AUTUMNAL_EQUINOX "Autumnal Equinox" 270) /\
  find_surrounding_events Sample.seasons (-1) = None /\
  find_surrounding_events Sample.seasons 400 = None /\
  find_surrounding_events Sample.seasons 90 = None.
Proof.
  pose proof sample_seasons_ascending as Hs.
  split; [exact Hs|].
  destruct (find_surrounding_events_spec Sample.seasons 200)
    as (_ & _ & _ & Hfive).
  destruct (Hfive _ _ _ _ _ eq_refl Hs) as (Hmid & _ & _).
  split; [apply Hmid; reflexivity|].
  destruct (find_surrounding_events_spec Sample.seasons (-1))
    as (_ & _ & Hout & _).
  destruct (Hout Hs) as (Hbefore & _ & _).
  split; [apply (Hbefore _ _ eq_refl); reflexivity|].
  destruct (find_surrounding_events_spec Sample.seasons 400)
    as (_ & _ & Hout' & _).
  destruct (Hout' Hs) as (_ & Hafter & _).
  split; [apply (Hafter (Sample.sunrise 0)); reflexivity|].
  destruct (find_surrounding_events_spec Sample.seasons 90)
    as (_ & _ & Hout'' & _).
  destruct (Hout'' Hs) as (_ & _ & Hon).
  apply (Hon (Sample.season EVENT_VERNAL_EQUINOX "Vernal Equinox" 90)).
  - right. left. reflexivity.
  - reflexivity.
Defined.

Lemma sample_orbit_segment :
  between_consecutive Sample.season_event_times 100 (302 # 3)
    (Sample.season EVENT_VERNAL_EQUINOX "Vernal Equinox" 90)
    (Sample.season EVENT_SUMMER_SOLSTICE "Summer Solstice" 180).
Proof.
  unfold between_consecutive. split; [in_order|].
  split; [vm_compute; left; reflexivity|]. split; reflexivity.
Qed.

Lemma orbit_triangle_wave_witness :
  between_consecutive Sample.season_event_times 100 (302 # 3)
    (Sample.season EVENT_VERNAL_EQUINOX "Vernal Equinox" 90)
    (Sample.season EVENT_SUMMER_SOLSTICE "Summer Solstice" 180) /\
  orbit_degrees_from_winter_solstice Sample.season_event_times (302 # 3) =
    Some (90 + ((302 # 3) - 90) / (180 - 90) * 90).
Proof.
  split; [exact sample_orbit_segment|].
  destruct (orbit_triangle_wave Sample.season_event_times) as (Hformula & _).
  destruct (Hformula _ _ _ sample_orbit_segment) as (_ & _ & Horbit).
  exact Horbit.
Defined.

Lemma sample_rotation_segment :
  between_consecutive
    (noon_nadir_event_times Sample.rise_set_event_times) 1 (302 # 3)
    (mkEventTime (mkEvent 1 "Solor noon") (12864 # 128))
    (mkEventTime (mkEvent 0 "Nadir") (12928 # 128)).
Proof.
  unfold between_consecutive. split; [in_order|].
  split; [vm_compute; right; left; reflexivity|]. split; reflexivity.
Qed.

Lemma rotation_sawtooth_witness :
  between_consecutive
    (noon_nadir_event_times Sample.rise_set_event_times) 1 (302 # 3)
    (mkEventTime (mkEvent 1 "Solor noon") (12864 # 128))
    (mkEventTime (mkEvent 0 "Nadir") (12928 # 128)) /\
  rotation_degrees_from_solar_noon Sample.rise_set_event_times (302 # 3) =
    Some (((302 # 3) - (12864 # 128)) / ((12928 # 128) - (12864 # 128)) * 180).
Proof.
  split; [exact sample_rotation_segment|].
  destruct (rotation_sawtooth Sample.rise_set_event_times) as (Hformula & _).
  destruct (Hformula _ _ _ sample_rotation_segment) as (_ & _ & Hnoon & _).
  apply Hnoon. reflexivity.
Defined.

Lemma earth_model_spec_witness :
  orbit_degrees_from_winter_solstice Sample.season_event_times (302 # 3) =
    Some (27180 # 270) /\
  rotation_degrees_from_solar_noon Sample.rise_set_event_times (302 # 3) =
    Some (188743680 # 3145728) /\
  exists em,
    earth_model Sample.season_event_times Sample.rise_set_event_times
                (302 # 3) = Some em /\
    orbit_degrees em = 27180 # 270 /\
    rotation_degrees em = (188743680 # 3145728) - (27180 # 270) + 360 /\
    0 <= rotation_degrees em /\ rotation_degrees em <= 360.
Proof.
  assert (Ho : orbit_degrees_from_winter_solstice Sample.season_event_times
                 (302 # 3) = Some (27180 # 270)) by (vm_compute; reflexivity).
  assert (Hr : rotation_degrees_from_solar_noon Sample.rise_set_event_times
                 (302 # 3) = Some (188743680 # 3145728))
    by (vm_compute; reflexivity).
  split; [exact Ho|]. split; [exact Hr|].
  destruct (earth_model_spec Sample.season_event_times
              Sample.rise_set_event_times _ _ _ Ho Hr)
    as (em & Hem & Horbit & Hneg & _ & Hrange).
  exists em. split; [exact Hem|]. split; [exact Horbit|].
  split; [apply Hneg; reflexivity|exact Hrange].
Defined.

Section Binary64Facts.

Import PrimFloat.
Local Open Scope float_scope.

(** C2, as first stated, fails in binary64.  With a vernal equinox 2^-46
    before time 1 the orbit degrees at time 1 are 90 + 2^-46, the rotation
    from solar noon is 90, their difference is negative, and adding 360
    rounds to exactly 360.0, which is outside [0, 360). *)
Lemma earth_model_binary64_reaches_360 :
  EarthBinary64.orbit_degrees_from_winter_solstice
      EarthBinary64.sample_season_event_times 1
    = Some (90 + 0x1p-46) /\
  EarthBinary64.rotation_degrees_from_solar_noon
      EarthBinary64.sample_rise_set_event_times 1
    = Some 90 /\
  ltb (90 - (90 + 0x1p-46)) 0 = true /\
  EarthBinary64.earth_model EarthBinary64.sample_season_event_times
      EarthBinary64.sample_rise_set_event_times 1
    = Some (EarthBinary64.mkEarthModel (90 + 0x1p-46) 360) /\
  ltb 360 360 = false.
Proof. repeat split; vm_compute; reflexivity. Qed.

End Binary64Facts.

Lemma step_sensor_loops_bounded_witness :
  (0 <= 50)%Z /\
  step_while_over_sensor (Z * Z) Sample.axes_onestep Sample.axes_sensing
      true stepper1 (SensorPin 27) 50 (mkState (0, 0)%Z [])
    = (Ret (true, 2%Z),
       mkState (2, 0)%Z [(stepper1, FORWARD); (stepper1, FORWARD)]) /\
  exists found steps s',
    step_until_over_sensor (Z * Z) Sample.axes_onestep Sample.axes_sensing
        true stepper1 (SensorPin 27) 50 (mkState (0, 0)%Z [])
      = (Ret (found, steps), s') /\
    (0 <= steps <= 50)%Z.
Proof.
  assert (H50 : (0 <= 50)%Z) by lia.
  split; [exact H50|]. split; [vm_compute; reflexivity|].
  destruct (step_sensor_loops_bounded (Z * Z) Sample.axes_onestep
              Sample.axes_sensing true stepper1 (SensorPin 27) 50
              (mkState (0, 0)%Z []) H50)
    as (_ & found & steps & s' & Hrun & _ & Hb & _).
  exists found, steps, s'. split; [exact Hrun|exact Hb].
Defined.


Lemma orbit_axis_update_witness :
  0 <= 90 /\ steps_and_floor 90 = (90 / DEGREES_PER_STEP, 50%Z) /\
  0 <= 6 /\ 6 <= 180 /\ 0 <= 0 /\ 0 <= 360 /\
  exists (s1 s' : State unit) (rotation_steps : nat),
    issued s1 = [] ++ repeat (stepper1, BACKWARD) 7 /\
    main_loop_body unit Sample.stuck_onestep (mkEarthModel 6 0) 10 0
                   (mkState tt []) = (Ret (3%Z, 0%Z), s') /\
    issued s' = issued s1 ++ repeat (stepper2, FORWARD) rotation_steps.
Proof.
  assert (H : 0 <= 90) by (vm_compute; discriminate).
  assert (Ho0 : 0 <= 6) by (vm_compute; discriminate).
  assert (Ho1 : 6 <= 180) by (vm_compute; discriminate).
  assert (Hr0 : 0 <= 0) by (vm_compute; discriminate).
  assert (Hr1 : 0 <= 360) by (vm_compute; discriminate).
  split; [exact H|].
  destruct (orbit_axis_update unit Sample.stuck_onestep)
    as (_ & Hfloor & _ & _ & _ & Hloop).
  split; [exact (Hfloor 90 H)|].
  repeat (split; [assumption|]).
  destruct (Hloop (mkEarthModel 6 0) 10%Z 0%Z (mkState tt [])
                  Ho0 Ho1 Hr0 Hr1)
    as (s1 & s' & n & _ & Hi1 & Hbody & Hi').
  exists s1, s', n. split; [exact Hi1|]. split; [exact Hbody|exact Hi'].
Defined.

Lemma out_of_range_is_fatal_witness :
  180 < orbit_degrees (mkEarthModel 200 10) /\
  main_loop_body unit Sample.stuck_onestep (mkEarthModel 200 10) 0 0
                 (mkState tt []) = (Exit 1, mkState tt []).
Proof.
  assert (H : 180 < orbit_degrees (mkEarthModel 200 10)) by reflexivity.
  split; [exact H|].
  apply (out_of_range_is_fatal unit Sample.stuck_onestep Sample.stuck_sensing
           (mkEarthModel 200 10) 0 0 [] (mkState tt [])).
  right. left. exact H.
Defined.

(** C5, as first stated, fails for rotation degrees of exactly 360: they lie
    outside [0, 360), yet the validation passes and the iteration issues
    200 forward steps on the rotation motor. *)
Lemma rotation_360_is_accepted :
  ~ rotation_degrees (mkEarthModel 0 360) < 360 /\
  validate_rotation_degrees unit 360 (mkState tt []) = (Ret tt, mkState tt []) /\
  main_loop_body unit Sample.stuck_onestep (mkEarthModel 0 360) 0 0
                 (mkState tt [])
    = (Ret (0%Z, 200%Z), mkState tt (repeat (stepper2, FORWARD) 200)).
Proof.
  split; [intro H; discriminate H|]. split; vm_compute; reflexivity.
Qed.

Lemma calibration_phases_witness :
  (0 <= 100)%Z /\ (0 <= 50)%Z /\
  scan (Z * Z) Sample.axes_onestep Sample.axes_sensing false stepper1
       (SensorPin 27) 100 50 (mkState (0, 0)%Z [])
    = (Ret true,
       mkState (-1, 0)%Z
         (repeat (stepper1, FORWARD) 2 ++ repeat (stepper1, BACKWARD) 1
          ++ repeat (stepper1, BACKWARD) 3 ++ repeat (stepper1, FORWARD) 1)) /\
  exists s3,
    main (Z * Z) Sample.axes_onestep Sample.axes_sensing
         [mkEarthModel 9 (18 # 5)] (mkState (0, 0)%Z []) = (Ret tt, s3).
Proof.
  assert (H100 : (0 <= 100)%Z) by lia.
  assert (H50 : (0 <= 50)%Z) by lia.
  split; [exact H100|]. split; [exact H50|].
  split; [vm_compute; reflexivity|].
  destruct (calibration_phases (Z * Z) Sample.axes_onestep Sample.axes_sensing
              false stepper1 (SensorPin 27) 100 50 (mkEarthModel 9 (18 # 5))
              (mkState (0, 0)%Z []) H100 H50) as (_ & Hmain).
  assert (Ho0 : 0 <= 9) by (vm_compute; discriminate).
  assert (Ho1 : 9 <= 180) by (vm_compute; discriminate).
  assert (Hr0 : 0 <= 18 # 5) by (vm_compute; discriminate).
  assert (Hr1 : 18 # 5 <= 360) by (vm_compute; discriminate).
  destruct (Hmain Ho0 Ho1 Hr0 Hr1)
    as (ok1 & s1 & ok2 & s2 & s3 & _ & _ & Hrun & _).
  exists s3. exact Hrun.
Defined.

(** C4, as first stated, fails on a rig whose sensors always sense: both
    calibrations fail in their first phase and return [False], yet [main]
    does not exit and goes on to position both axes (5 and 2 forward
    steps for 9 and 3.6 degrees). *)
Lemma failed_calibration_is_ignored :
  scan unit Sample.stuck_onestep Sample.stuck_sensing false (steppers 0)
       (sensors 0) 100 50 (mkState tt [])
    = (Ret false, mkState tt (repeat (stepper1, FORWARD) 50)) /\
  scan unit Sample.stuck_onestep Sample.stuck_sensing true (steppers 1)
       (sensors 1) 200 50 (mkState tt (repeat (stepper1, FORWARD) 50))
    = (Ret false,
       mkState tt (repeat (stepper1, FORWARD) 50
                   ++ repeat (stepper2, BACKWARD) 50)) /\
  main unit Sample.stuck_onestep Sample.stuck_sensing
       [mkEarthModel 9 (18 # 5)] (mkState tt [])
    = (Ret tt,
       mkState tt (repeat (stepper1, FORWARD) 50
                   ++ repeat (stepper2, BACKWARD) 50
                   ++ repeat (stepper1, FORWARD) 5
                   ++ repeat (stepper2, FORWARD) 2)).
Proof. repeat split; vm_compute; reflexivity. Qed.

(** * Further properties of [earth.py] *)

(** X1.  On an ascending timeline at most one consecutive pair straddles a
    time: the pair that [find_surrounding_events] returns is the only
    candidate, so taking the first one loses nothing. *)
Theorem straddling_pair_unique (events : list EventTime) (t : Q)
    (p q : EventTime * EventTime) :
  ascending events ->
  In p (zip_next events) -> In q (zip_next events) ->
  straddles t p -> straddles t q ->
  p = q /\ find_surrounding_events events t = Some p.
Proof.
  intros Hs Hp Hq [Hp1 Hp2] [Hq1 Hq2]. destruct p as [a b], q as [x y].
  cbn [fst snd] in *.
  pose proof (find_surrounding_events_ascending events t a b Hs Hp Hp1 Hp2)
    as Ha.
  pose proof (find_surrounding_events_ascending events t x y Hs Hq Hq1 Hq2)
    as Hx.
  split; [congruence|exact Ha].
Qed.

Lemma straddling_pair_unique_witness :
  find_surrounding_events Sample.seasons 200 =
    Some (Sample.season EVENT_SUMMER_SOLSTICE "Summer Solstice" 180,
          Sample.season EVENT_AUTUMNAL_EQUINOX "Autumnal Equinox" 270).
Proof.
  apply (straddling_pair_unique Sample.seasons 200
           (Sample.season EVENT_SUMMER_SOLSTICE "Summer Solstice" 180,
            Sample.season EVENT_AUTUMNAL_EQUINOX "Autumnal Equinox" 270)
           (Sample.season EVENT_SUMMER_SOLSTICE "Summer Solstice" 180,
            Sample.season EVENT_AUTUMNAL_EQUINOX "Autumnal Equinox" 270)
           sample_seasons_ascending).
  - vm_compute. right. right. left. reflexivity.
  - vm_compute. right. right. left. reflexivity.
  - split; reflexivity.
  - split; reflexivity.
Defined.

Lemma find_surrounding_events_short (events : list EventTime) (t : Q) :
  (length events < 2)%nat -> find_surrounding_events events t = None.
Proof.
  destruct events as [|a [|b l]]; simpl; intro H; try reflexivity. lia.
Qed.

(** X2.  Whenever [find_surrounding_events] returns a pair,
    [position_as_percent] of that pair is defined and lies strictly between
    0 and 1, whether or not the timeline is sorted.  On any pair of events
    with different times it is 0 at the time of the first event and 1 at
    the time of the second. *)
Theorem position_as_percent_found :
  (forall events t evts,
     find_surrounding_events events t = Some evts ->
     exists p, position_as_percent evts t = Some p /\ 0 < p /\ p < 1) /\
  (forall x y,
     ~ time y == time x ->
     exists p0 p1,
       position_as_percent (x, y) (time x) = Some p0 /\ p0 == 0 /\
       position_as_percent (x, y) (time y) = Some p1 /\ p1 == 1).
Proof.
  split.
  - intros events t [x y] H.
    apply find_surrounding_events_some in H. destruct H as (_ & Hx & Hy).
    rewrite position_as_percent_straddles by assumption.
    eexists. split; [reflexivity|]. apply fraction_bounds; assumption.
  - intros x y Hne. unfold position_as_percent. cbn [fst snd].
    destruct (Qeq_bool (time y - time x) 0) eqn:E.
    + apply Qeq_bool_iff in E. exfalso. apply Hne. lra.
    + apply Qeq_bool_neq in E. eexists. eexists.
      split; [reflexivity|]. split; [field; exact E|].
      split; [reflexivity|]. field. exact E.
Qed.

Lemma position_as_percent_found_witness :
  exists p,
    position_as_percent
      (Sample.season EVENT_SUMMER_SOLSTICE "Summer Solstice" 180,
       Sample.season EVENT_AUTUMNAL_EQUINOX "Autumnal Equinox" 270) 200
      = Some p /\ 0 < p /\ p < 1.
Proof.
  destruct position_as_percent_found as (Hfound & _).
  apply (Hfound Sample.seasons 200). vm_compute. reflexivity.
Defined.

Lemma zip_next_ordered (events : list EventTime) (x y : EventTime) :
  ascending events -> In (x, y) (zip_next events) -> time x <= time y.
Proof.
  induction events as [|a l IH]; [intros _ []|].
  destruct l as [|b l]; [intros _ []|].
  rewrite zip_next_cons. intros Hs [Heq|Hin].
  - injection Heq as <- <-. apply (ascending_head a (b :: l)); simpl; auto.
  - apply IH; [eapply ascending_tail; eauto|exact Hin].
Qed.

Lemma noon_nadir_of_pair_between (x y : EventTime) :
  time x <= time y ->
  time x <= time (noon_nadir_of_pair (x, y)) /\
  time (noon_nadir_of_pair (x, y)) <= time y.
Proof.
  intro H. unfold noon_nadir_of_pair, tt_jd. cbn [fst snd time].
  assert (E : time x + (time y - time x) / 2
              == time x * (1 # 2) + time y * (1 # 2)) by field.
  split; lra.
Qed.

Lemma noon_nadir_ascending_list (events : list EventTime) :
  ascending events ->
  ascending (map noon_nadir_of_pair (zip_next events)).
Proof.
  induction events as [|a l IH]; [constructor|].
  destruct l as [|b l]; [constructor|].
  intro Hs. rewrite zip_next_cons. cbn [map].
  pose proof (ascending_tail _ _ Hs) as Hs'.
  constructor; [apply IH; exact Hs'|].
  apply Forall_forall. intros e He. apply in_map_iff in He.
  destruct He as ([x y] & <- & Hin).
  pose proof (zip_next_ordered _ _ _ Hs' Hin) as Hxy.
  pose proof (ascending_head b l x Hs' (proj1 (zip_next_in _ _ _ Hin))) as Hbx.
  pose proof (ascending_head a (b :: l) b Hs (or_intror (or_introl eq_refl)))
    as Hab.
  destruct (noon_nadir_of_pair_between a b Hab).
  destruct (noon_nadir_of_pair_between x y Hxy).
  lra.
Qed.

Section NoonNadirOrder.

Variable rise_set_event_times : Q -> Q -> list EventTime.

(** X3.  [noon_nadir_event_times] keeps the order of time: from an ascending
    rise/set sequence it builds an ascending sequence, and each of its
    events lies between the two rise/set events it was built from, strictly
    so when these two differ in time. *)
Theorem noon_nadir_event_times_ascending (start end_ : Q) :
  ascending (rise_set_event_times start end_) ->
  ascending (noon_nadir_event_times rise_set_event_times start end_) /\
  forall i x y e,
    nth_error (rise_set_event_times start end_) i = Some x ->
    nth_error (rise_set_event_times start end_) (S i) = Some y ->
    nth_error (noon_nadir_event_times rise_set_event_times start end_) i
      = Some e ->
    time x <= time e /\ time e <= time y /\
    (time x < time y -> time x < time e /\ time e < time y).
Proof.
  intro Hs. split.
  - unfold noon_nadir_event_times. apply noon_nadir_ascending_list. exact Hs.
  - intros i x y e Hx Hy He. unfold noon_nadir_event_times in He.
    rewrite (map_nth_error noon_nadir_of_pair _ _
               (zip_next_nth_error _ _ _ _ Hx Hy)) in He.
    injection He as <-.
    assert (Hxy : time x <= time y).
    { apply (zip_next_ordered _ _ _ Hs).
      eapply nth_error_In. apply zip_next_nth_error; eassumption. }
    destruct (noon_nadir_of_pair_between x y Hxy) as [H1 H2].
    split; [exact H1|]. split; [exact H2|]. intro Hlt.
    unfold noon_nadir_of_pair, tt_jd in *. cbn [fst snd time] in *.
    assert (E : time x + (time y - time x) / 2
                == time x * (1 # 2) + time y * (1 # 2)) by field.
    split; lra.
Qed.

End NoonNadirOrder.

Lemma sample_rise_sets_ascending :
  ascending (Sample.rise_set_event_times 99 102).
Proof. in_order. Qed.

Lemma noon_nadir_event_times_ascending_witness :
  ascending (Sample.rise_set_event_times 99 102) /\
  ascending (noon_nadir_event_times Sample.rise_set_event_times 99 102).
Proof.
  split; [exact sample_rise_sets_ascending|].
  apply (noon_nadir_event_times_ascending Sample.rise_set_event_times 99 102
           sample_rise_sets_ascending).
Defined.

Lemma Qfloor_eq (q : Q) (z : Z) :
  inject_Z z <= q -> q < inject_Z (z + 1) -> Qfloor q = z.
Proof.
  intros H1 H2. pose proof (Qfloor_le q) as H3.
  pose proof (Qlt_floor q) as H4.
  assert (H5 : inject_Z (Qfloor q) < inject_Z (z + 1))
    by (eapply Qle_lt_trans; eassumption).
  assert (H6 : inject_Z z < inject_Z (Qfloor q + 1))
    by (eapply Qle_lt_trans; eassumption).
  rewrite <- Zlt_Qlt in H5, H6. lia.
Qed.

Lemma Qmod_360_small (x : Q) : 0 <= x -> x < 360 -> Qmod x 360 == x.
Proof.
  intros H0 H1. unfold Qmod.
  assert (E : x / 360 == x * (1 # 360)) by field.
  rewrite (Qfloor_eq (x / 360) 0).
  - change (inject_Z 0) with 0. lra.
  - change (inject_Z 0) with 0. lra.
  - change (inject_Z (0 + 1)) with 1. lra.
Qed.

Lemma Qmod_360_wrap (x : Q) : 360 <= x -> x < 720 -> Qmod x 360 == x - 360.
Proof.
  intros H0 H1. unfold Qmod.
  assert (E : x / 360 == x * (1 # 360)) by field.
  rewrite (Qfloor_eq (x / 360) 1).
  - change (inject_Z 1) with 1. lra.
  - change (inject_Z 1) with 1. lra.
  - change (inject_Z (1 + 1)) with 2. lra.
Qed.

Lemma orbit_degrees_none_iff (season_event_times : Q -> Q -> list EventTime)
    (t : Q) :
  orbit_degrees_from_winter_solstice season_event_times t = None <->
  surrounding_events t 100 season_event_times = None.
Proof.
  unfold orbit_degrees_from_winter_solstice.
  destruct (surrounding_events t 100 season_event_times) as [[x y]|] eqn:E;
    [|tauto].
  destruct (orbit_found season_event_times t x y E) as (Hx & Hy & _).
  rewrite position_as_percent_straddles by assumption.
  split; discriminate.
Qed.

Lemma rotation_degrees_none_iff
    (rise_set_event_times : Q -> Q -> list EventTime) (t : Q) :
  rotation_degrees_from_solar_noon rise_set_event_times t = None <->
  surrounding_events t 1 (noon_nadir_event_times rise_set_event_times) = None.
Proof.
  unfold rotation_degrees_from_solar_noon.
  destruct (surrounding_events t 1
              (noon_nadir_event_times rise_set_event_times))
    as [[x y]|] eqn:E; [|tauto].
  destruct (rotation_found rise_set_event_times t x y E) as (Hx & Hy & _).
  rewrite position_as_percent_straddles by assumption.
  split; discriminate.
Qed.

Section OrbitRanges.

Variable season_event_times : Q -> Q -> list EventTime.

(** X4.  [orbit_degrees_from_winter_solstice] has a result exactly when a
    straddling pair of season events is found, and the result is never one
    of the end values 0, 90 and 180: it lies in (90, 180) when the preceding
    event is a summer solstice or has any code other than autumnal equinox
    and winter solstice, and in (0, 90) when it is an autumnal equinox or a
    winter solstice. *)
Theorem orbit_degrees_quadrant (t : Q) :
  (orbit_degrees_from_winter_solstice season_event_times t = None <->
   surrounding_events t 100 season_event_times = None) /\
  (forall x y,
     surrounding_events t 100 season_event_times = Some (x, y) ->
     exists o,
       orbit_degrees_from_winter_solstice season_event_times t = Some o /\
       (value (event x) = EVENT_AUTUMNAL_EQUINOX \/
        value (event x) = EVENT_WINTER_SOLSTICE -> 0 < o /\ o < 90) /\
       (value (event x) <> EVENT_AUTUMNAL_EQUINOX ->
        value (event x) <> EVENT_WINTER_SOLSTICE -> 90 < o /\ o < 180)).
Proof.
  split; [apply orbit_degrees_none_iff|].
  - intros x y E.
    destruct (orbit_found season_event_times t x y E) as (Hx & Hy & Ho).
    destruct (fraction_bounds _ _ _ Hx Hy) as [H0 H1].
    eexists. split; [exact Ho|].
    unfold relative_to_absolute_orbit_degrees.
    destruct (Z.eqb_spec (value (event x)) EVENT_SUMMER_SOLSTICE) as [E1|E1];
      [|destruct (Z.eqb_spec (value (event x)) EVENT_AUTUMNAL_EQUINOX)
          as [E2|E2];
        [|destruct (Z.eqb_spec (value (event x)) EVENT_WINTER_SOLSTICE)
            as [E3|E3]]];
      (split; [intros [H|H]|intros Ha Hw]);
      try (rewrite H in *; discriminate);
      try congruence; try (split; lra).
Qed.

End OrbitRanges.

Lemma orbit_degrees_quadrant_witness :
  exists o,
    orbit_degrees_from_winter_solstice Sample.season_event_times (302 # 3)
      = Some o /\ 90 < o /\ o < 180.
Proof.
  destruct (orbit_degrees_quadrant Sample.season_event_times (302 # 3))
    as (_ & Hq).
  destruct (Hq (Sample.season EVENT_VERNAL_EQUINOX "Vernal Equinox" 90)
               (Sample.season EVENT_SUMMER_SOLSTICE "Summer Solstice" 180))
    as (o & Ho & _ & Hupper).
  - vm_compute. reflexivity.
  - exists o. split; [exact Ho|]. apply Hupper; discriminate.
Defined.

Section RotationRanges.

Variable rise_set_event_times : Q -> Q -> list EventTime.

(** X5.  [rotation_degrees_from_solar_noon] has a result exactly when a
    straddling pair of noon/nadir events is found; the result lies in
    (0, 180) when the preceding event is a solar noon (true tag) and in
    (180, 360) when it is a nadir, and is never 0, 180 or 360 itself. *)
Theorem rotation_degrees_half (t : Q) :
  (rotation_degrees_from_solar_noon rise_set_event_times t = None <->
   surrounding_events t 1 (noon_nadir_event_times rise_set_event_times)
     = None) /\
  (forall x y,
     surrounding_events t 1 (noon_nadir_event_times rise_set_event_times)
       = Some (x, y) ->
     exists r,
       rotation_degrees_from_solar_noon rise_set_event_times t = Some r /\
       (truthy (value (event x)) = true -> 0 < r /\ r < 180) /\
       (truthy (value (event x)) = false -> 180 < r /\ r < 360)).
Proof.
  split; [apply rotation_degrees_none_iff|].
  - intros x y E.
    destruct (rotation_found rise_set_event_times t x y E) as (Hx & Hy & Hr).
    destruct (fraction_bounds _ _ _ Hx Hy) as [H0 H1].
    eexists. split; [exact Hr|].
    destruct (truthy (value (event x)));
      (split; intro H; [try discriminate H|try discriminate H]); split; lra.
Qed.

End RotationRanges.

Lemma rotation_degrees_half_witness :
  exists r,
    rotation_degrees_from_solar_noon Sample.rise_set_event_times (302 # 3)
      = Some r /\ 0 < r /\ r < 180.
Proof.
  destruct (rotation_degrees_half Sample.rise_set_event_times (302 # 3))
    as (_ & Hh).
  destruct (Hh (mkEventTime (mkEvent 1 "Solor noon") (12864 # 128))
               (mkEventTime (mkEvent 0 "Nadir") (12928 # 128)))
    as (r & Hr & Hnoon & _).
  - vm_compute. reflexivity.
  - exists r. split; [exact Hr|]. apply Hnoon. reflexivity.
Defined.

Section ModelReadout.

Variable season_event_times : Q -> Q -> list EventTime.
Variable rise_set_event_times : Q -> Q -> list EventTime.

Lemma earth_model_some (t : Q) (em : EarthModel) :
  earth_model season_event_times rise_set_event_times t = Some em ->
  exists o r,
    orbit_degrees_from_winter_solstice season_event_times t = Some o /\
    rotation_degrees_from_solar_noon rise_set_event_times t = Some r /\
    0 < o /\ o < 180 /\ 0 < r /\ r < 360 /\
    orbit_degrees em = o /\
    rotation_degrees em = (if Qltb (r - o) 0 then r - o + 360 else r - o).
Proof.
  unfold earth_model.
  destruct (orbit_degrees_from_winter_solstice season_event_times t)
    as [o|] eqn:Ho; [|discriminate].
  destruct (rotation_degrees_from_solar_noon rise_set_event_times t)
    as [r|] eqn:Hr; [|discriminate].
  intros [= <-]. exists o, r.
  destruct (orbit_range season_event_times t o Ho).
  destruct (rotation_range rise_set_event_times t r Hr).
  cbn [orbit_degrees rotation_degrees]. repeat split; auto.
Qed.

(** X6.  The sum that [main] of [earth.py] prints as 'effective',
    (rotation + orbit) % 360 of the model, is the rotation from solar noon
    again: subtracting the orbit degrees in [earth_model], with or without
    the added 360, is undone by adding them back modulo 360. *)
Theorem effective_is_rotation_from_noon (now : Q) (em : EarthModel) :
  earth_model season_event_times rise_set_event_times now = Some em ->
  exists r d,
    rotation_degrees_from_solar_noon rise_set_event_times now = Some r /\
    Qmod (rotation_degrees em + orbit_degrees em) 360 == r /\
    Earth.main season_event_times rise_set_event_times now = Some d /\
    d_orbit d = orbit_degrees em /\
    d_rotation d = rotation_degrees em /\
    d_effective d == r.
Proof.
  intro Hem.
  destruct (earth_model_some now em Hem)
    as (o & r & Ho & Hr & Ho0 & Ho1 & Hr0 & Hr1 & Eo & Er).
  assert (Hmod : Qmod (rotation_degrees em + orbit_degrees em) 360 == r).
  { rewrite Eo, Er. destruct (Qltb (r - o) 0) eqn:E.
    - apply Qltb_lt in E. rewrite Qmod_360_wrap; lra.
    - apply Qltb_ge in E. rewrite Qmod_360_small; lra. }
  exists r. eexists. split; [exact Hr|]. split; [exact Hmod|].
  unfold Earth.main. rewrite Hem. split; [reflexivity|].
  cbn [d_orbit d_rotation d_effective]. auto.
Qed.

(** X7.  [earth_model] has a result exactly when both lookups find a
    straddling pair.  It has none when the season window holds fewer than
    two events, or the rise/set window fewer than three (which leaves fewer
    than two noon/nadir events). *)
Theorem earth_model_defined (t : Q) :
  (earth_model season_event_times rise_set_event_times t = None <->
   surrounding_events t 100 season_event_times = None \/
   surrounding_events t 1 (noon_nadir_event_times rise_set_event_times)
     = None) /\
  ((length (season_event_times (t - 100) (t + 100)) < 2)%nat ->
   earth_model season_event_times rise_set_event_times t = None) /\
  ((length (rise_set_event_times (t - 1) (t + 1)) < 3)%nat ->
   earth_model season_event_times rise_set_event_times t = None).
Proof.
  assert (Hiff :
    earth_model season_event_times rise_set_event_times t = None <->
    surrounding_events t 100 season_event_times = None \/
    surrounding_events t 1 (noon_nadir_event_times rise_set_event_times)
      = None).
  { rewrite <- (orbit_degrees_none_iff season_event_times t).
    rewrite <- (rotation_degrees_none_iff rise_set_event_times t).
    unfold earth_model.
    destruct (orbit_degrees_from_winter_solstice season_event_times t);
      [|tauto].
    destruct (rotation_degrees_from_solar_noon rise_set_event_times t);
      [|tauto].
    split; [discriminate|intros [H|H]; discriminate]. }
  split; [exact Hiff|]. split; intro Hlen; apply Hiff.
  - left. unfold surrounding_events, tt_jd.
    apply find_surrounding_events_short. exact Hlen.
  - right. unfold surrounding_events, tt_jd.
    apply find_surrounding_events_short.
    unfold noon_nadir_event_times. rewrite length_map, zip_next_length.
    lia.
Qed.

End ModelReadout.

Lemma effective_is_rotation_from_noon_witness :
  exists d,
    Earth.main Sample.season_event_times Sample.rise_set_event_times
               (302 # 3) = Some d /\
    d_effective d == 60.
Proof.
  assert (Hem : earth_model Sample.season_event_times
                  Sample.rise_set_event_times (302 # 3)
                = Some (mkEarthModel (27180 # 270)
                          (271224668160 # 849346560)))
    by (vm_compute; reflexivity).
  destruct (effective_is_rotation_from_noon Sample.season_event_times
              Sample.rise_set_event_times _ _ Hem)
    as (r & d & Hr & _ & Hd & _ & _ & He).
  exists d. split; [exact Hd|]. rewrite He.
  assert (Hr' : rotation_degrees_from_solar_noon Sample.rise_set_event_times
                  (302 # 3) = Some (188743680 # 3145728))
    by (vm_compute; reflexivity).
  rewrite Hr' in Hr. injection Hr as <-. reflexivity.
Defined.

Lemma earth_model_defined_witness :
  (length (Sample.no_event_times (5 - 100) (5 + 100)) < 2)%nat /\
  earth_model Sample.no_event_times Sample.rise_set_event_times 5 = None.
Proof.
  assert (H : (length (Sample.no_event_times (5 - 100) (5 + 100)) < 2)%nat)
    by (simpl; lia).
  split; [exact H|].
  destruct (earth_model_defined Sample.no_event_times
              Sample.rise_set_event_times 5) as (_ & Hshort & _).
  exact (Hshort H).
Defined.

(** * Further properties of [earth_model.py] *)

Lemma int_of_Q_ceiling (q : Q) : q <= 0 -> int_of_Q q = Qceiling q.
Proof.
  destruct q as [n d]. unfold Qle, int_of_Q, Qceiling, Qfloor, Qopp.
  simpl. intro H.
  replace n with (- - n)%Z at 1 by lia.
  rewrite Z.quot_opp_l by lia. f_equal.
  apply Z.quot_div_nonneg; lia.
Qed.

Lemma steps_per_degree (degrees : Q) :
  degrees / DEGREES_PER_STEP == degrees * (5 # 9).
Proof. unfold DEGREES_PER_STEP, STEPS_PER_REV. field. Qed.

(** X8.  [steps_and_floor] returns degrees / 1.8 and its integer part.  For
    non-negative degrees the integer part is the floor, so that
    floor <= steps < floor + 1; for degrees up to 180 it lies in [0, 100],
    for degrees up to 360 in [0, 200], and it is 200 only at exactly 360
    degrees.  For negative degrees [int] rounds toward zero, so the integer
    part is the ceiling, not the floor. *)
Theorem steps_and_floor_bounds (degrees : Q) :
  fst (steps_and_floor degrees) == degrees * (5 # 9) /\
  (0 <= degrees ->
     inject_Z (snd (steps_and_floor degrees)) <= fst (steps_and_floor degrees)
     /\ fst (steps_and_floor degrees)
        < inject_Z (snd (steps_and_floor degrees) + 1) /\
     (degrees <= 180 -> (0 <= snd (steps_and_floor degrees) <= 100)%Z) /\
     (degrees <= 360 ->
        (0 <= snd (steps_and_floor degrees) <= 200)%Z /\
        (snd (steps_and_floor degrees) = 200%Z <-> degrees == 360))) /\
  (degrees <= 0 ->
     snd (steps_and_floor degrees) = Qceiling (fst (steps_and_floor degrees))).
Proof.
  pose proof (steps_per_degree degrees) as E.
  split; [exact E|]. split.
  - intro H0. rewrite steps_and_floor_nonneg by exact H0. cbn [fst snd].
    pose proof (Qfloor_le (degrees / DEGREES_PER_STEP)) as Hf1.
    pose proof (Qlt_floor (degrees / DEGREES_PER_STEP)) as Hf2.
    split; [exact Hf1|]. split; [exact Hf2|].
    assert (Hlow : (0 <= Qfloor (degrees / DEGREES_PER_STEP))%Z).
    { rewrite <- (Qfloor_Z 0). apply Qfloor_resp_le.
      change (inject_Z 0) with 0. lra. }
    split.
    + intro H1. split; [exact Hlow|].
      rewrite <- (Qfloor_Z 100). apply Qfloor_resp_le.
      change (inject_Z 100) with 100. lra.
    + intro H1. split.
      * split; [exact Hlow|].
        rewrite <- (Qfloor_Z 200). apply Qfloor_resp_le.
        change (inject_Z 200) with 200. lra.
      * split.
        -- intro H200. rewrite H200 in Hf1.
           change (inject_Z 200) with 200 in Hf1. lra.
        -- intro H360. apply Qfloor_eq.
           ++ change (inject_Z 200) with 200. lra.
           ++ change (inject_Z (200 + 1)) with 201. lra.
  - intro H0. unfold steps_and_floor. cbn [fst snd].
    apply int_of_Q_ceiling. lra.
Qed.

Lemma steps_and_floor_bounds_witness :
  0 <= 360 /\ 360 <= 360 /\ snd (steps_and_floor 360) = 200%Z.
Proof.
  assert (H0 : 0 <= 360) by (vm_compute; discriminate).
  assert (H1 : 360 <= 360) by (vm_compute; discriminate).
  split; [exact H0|]. split; [exact H1|].
  destruct (steps_and_floor_bounds 360) as (_ & Hpos & _).
  destruct (Hpos H0) as (_ & _ & _ & Hrot).
  destruct (Hrot H1) as (_ & Hiff). apply Hiff. reflexivity.
Defined.

Lemma net_steps_app (motor : Motor) (a b : list Command) :
  net_steps motor (a ++ b) = (net_steps motor a + net_steps motor b)%Z.
Proof.
  induction a as [|[m d] a IH]; [reflexivity|].
  cbn [app net_steps]. rewrite IH. lia.
Qed.

Lemma net_steps_repeat (motor m : Motor) (d : Direction) (n : nat) :
  net_steps motor (repeat (m, d) n) =
    ((if motor_eqb m motor
      then match d with FORWARD => 1 | BACKWARD => -1 end
      else 0) * Z.of_nat n)%Z.
Proof.
  induction n as [|n IH]; [cbn; lia|].
  cbn [repeat net_steps]. rewrite IH. lia.
Qed.

Section StepFacts.

Variable World : Type.
Variable onestep : Motor -> Direction -> World -> World.

Local Abbreviation St := (State World).

Lemma for_range_state (n : nat) (motor : Motor) (d : Direction) (s : St) :
  for_range World n (motor_onestep World onestep motor d) s =
    (Ret tt, mkState (Nat.iter n (onestep motor d) (world s))
                     (issued s ++ repeat (motor, d) n)).
Proof.
  revert s. induction n as [|n IH]; intro s.
  - destruct s as [w l]. cbn. rewrite app_nil_r. reflexivity.
  - cbn [for_range]. unfold bind at 1. unfold motor_onestep at 1.
    rewrite IH. cbn [world issued]. rewrite Nat.iter_succ_r.
    cbn [repeat]. rewrite <- app_assoc. reflexivity.
Qed.

(** X9.  [take_steps] steps the motor max(steps, 0) times in the one
    direction asked for and always returns: a zero or negative count does
    nothing at all, and the net displacement of the motor is +steps forward
    or -steps backward.  Two calls in the same direction with counts
    a, b >= 0 do what one call with a + b does. *)
Theorem take_steps_effect (forward : bool) (motor : Motor) (s : St) :
  (forall steps,
     take_steps World onestep forward motor steps s =
       (Ret tt,
        mkState (Nat.iter (Z.to_nat steps)
                          (onestep motor (direction_of forward)) (world s))
                (issued s ++
                 repeat (motor, direction_of forward) (Z.to_nat steps))) /\
     net_steps motor (repeat (motor, direction_of forward) (Z.to_nat steps))
       = (if forward then Z.max 0 steps else - Z.max 0 steps)%Z) /\
  (forall steps, (steps <= 0)%Z ->
     take_steps World onestep forward motor steps s = (Ret tt, s)) /\
  (forall a b, (0 <= a)%Z -> (0 <= b)%Z ->
     bind World (take_steps World onestep forward motor a)
          (fun _ => take_steps World onestep forward motor b) s =
     take_steps World onestep forward motor (a + b) s).
Proof.
  split; [|split].
  - intro steps. unfold take_steps. split; [apply for_range_state|].
    rewrite net_steps_repeat.
    destruct motor, forward; cbn [motor_eqb direction_of]; lia.
  - intros steps Hle. unfold take_steps. rewrite for_range_state.
    replace (Z.to_nat steps) with 0%nat by lia.
    destruct s as [w l]. cbn. rewrite app_nil_r. reflexivity.
  - intros a b Ha Hb. unfold take_steps, bind.
    rewrite !for_range_state. cbn [world issued].
    rewrite Z2Nat.inj_add by assumption.
    rewrite repeat_app, app_assoc.
    rewrite (Nat.add_comm (Z.to_nat a)), Nat.iter_add. reflexivity.
Qed.

End StepFacts.

Lemma take_steps_effect_witness :
  (-3 <= 0)%Z /\
  take_steps (Z * Z) Sample.axes_onestep true stepper1 (-3)
             (mkState (4, 7)%Z []) = (Ret tt, mkState (4, 7)%Z []) /\
  take_steps (Z * Z) Sample.axes_onestep false stepper2 3
             (mkState (4, 7)%Z [])
    = (Ret tt, mkState (4, 4)%Z (repeat (stepper2, BACKWARD) 3)).
Proof.
  assert (H : (-3 <= 0)%Z) by lia.
  split; [exact H|]. split.
  - destruct (take_steps_effect (Z * Z) Sample.axes_onestep true stepper1
                (mkState (4, 7)%Z [])) as (_ & Hneg & _).
    exact (Hneg (-3)%Z H).
  - destruct (take_steps_effect (Z * Z) Sample.axes_onestep false stepper2
                (mkState (4, 7)%Z [])) as (Hrun & _).
    destruct (Hrun 3%Z) as [Hr _]. exact Hr.
Defined.

Lemma validated_cases (em : EarthModel) :
  validated em \/
  (orbit_degrees em < 0 \/ 180 < orbit_degrees em \/
   rotation_degrees em < 0 \/ 360 < rotation_degrees em).
Proof.
  unfold validated.
  destruct (Qlt_le_dec (orbit_degrees em) 0); [tauto|].
  destruct (Qlt_le_dec 180 (orbit_degrees em)); [tauto|].
  destruct (Qlt_le_dec (rotation_degrees em) 0); [tauto|].
  destruct (Qlt_le_dec 360 (rotation_degrees em)); tauto.
Qed.

Lemma not_validated (em : EarthModel) :
  ~ validated em ->
  orbit_degrees em < 0 \/ 180 < orbit_degrees em \/
  rotation_degrees em < 0 \/ 360 < rotation_degrees em.
Proof. intro H. destruct (validated_cases em); tauto. Qed.

Lemma target_steps_floor (em : EarthModel) :
  validated em ->
  target_steps em =
    (Qfloor (orbit_degrees em / DEGREES_PER_STEP),
     Qfloor (rotation_degrees em / DEGREES_PER_STEP)).
Proof.
  intros (Ho0 & _ & Hr0 & _). unfold target_steps.
  rewrite !steps_and_floor_nonneg by assumption. reflexivity.
Qed.

Lemma floor_steps_range (degrees : Q) (limit : Z) :
  0 <= degrees -> degrees * (5 # 9) <= inject_Z limit ->
  (0 <= Qfloor (degrees / DEGREES_PER_STEP) <= limit)%Z.
Proof.
  intros H0 H1. pose proof (steps_per_degree degrees) as E. split.
  - rewrite <- (Qfloor_Z 0). apply Qfloor_resp_le.
    change (inject_Z 0) with 0. lra.
  - rewrite <- (Qfloor_Z limit). apply Qfloor_resp_le. lra.
Qed.

Lemma target_steps_range (em : EarthModel) :
  validated em ->
  (0 <= fst (target_steps em) <= 100)%Z /\
  (0 <= snd (target_steps em) <= 200)%Z.
Proof.
  intros Hv. rewrite target_steps_floor by exact Hv.
  destruct Hv as (Ho0 & Ho1 & Hr0 & Hr1). cbn [fst snd]. split.
  - apply floor_steps_range; [exact Ho0|].
    change (inject_Z 100) with 100. lra.
  - apply floor_steps_range; [exact Hr0|].
    change (inject_Z 200) with 200. lra.
Qed.

Lemma last_cons_default {A : Type} (a d : A) (l : list A) :
  last (a :: l) d = last l a.
Proof.
  revert a d. induction l as [|b l IH]; intros a d; [reflexivity|].
  change (last (a :: b :: l) d) with (last (b :: l) d).
  rewrite IH. symmetry. apply IH.
Qed.

Section LoopFacts.

Variable World : Type.
Variable onestep : Motor -> Direction -> World -> World.

Local Abbreviation St := (State World).

(** One iteration on a validated model: the outcome and the commands. *)
Lemma main_loop_body_validated (em : EarthModel) (o r : Z) (s : St) :
  validated em ->
  exists s',
    main_loop_body World onestep em o r s = (Ret (target_steps em), s') /\
    issued s' =
      issued s
      ++ repeat (steppers 0,
                 if (0 <? fst (target_steps em) - o)%Z
                 then FORWARD else BACKWARD)
                (Z.to_nat (Z.abs (fst (target_steps em) - o)))
      ++ repeat (steppers 1, FORWARD)
                (Z.to_nat (if (snd (target_steps em) - r <? 0)%Z
                           then STEPS_PER_REV + (snd (target_steps em) - r)
                           else snd (target_steps em) - r)).
Proof.
  intro Hv. rewrite (target_steps_floor em Hv). cbn [fst snd].
  destruct Hv as (Ho0 & Ho1 & Hr0 & Hr1).
  destruct (main_loop_body_run World onestep em o r s Ho0 Ho1 Hr0 Hr1)
    as (s1 & s2 & Hu1 & Hu2 & Hbody).
  destruct (update_orbit_run World onestep
              (Qfloor (orbit_degrees em / DEGREES_PER_STEP)) o s)
    as (s1' & Hu1' & Hi1).
  rewrite Hu1 in Hu1'. injection Hu1' as <-.
  destruct (update_rotation_run World onestep
              (Qfloor (rotation_degrees em / DEGREES_PER_STEP)) r s1)
    as (s2' & Hu2' & Hi2).
  rewrite Hu2 in Hu2'. injection Hu2' as <-.
  exists s2. split; [exact Hbody|].
  rewrite Hi2, Hi1, <- app_assoc. reflexivity.
Qed.

(** X10.  On the models that the calls of [earth.earth_model_now()]
    returned, the loop of [main] goes on as long as they are within the
    validated ranges; at the first model outside the ranges it exits with
    code 1 in exactly the state that the models before it left, so nothing
    is issued for that model or any later one. *)
Theorem main_loop_exit (samples : list EarthModel) (o r : Z) (s : St) :
  (Forall validated samples ->
   exists s', main_loop World onestep samples o r s = (Ret tt, s')) /\
  (forall before em after,
     samples = before ++ em :: after ->
     Forall validated before -> ~ validated em ->
     exists s',
       main_loop World onestep before o r s = (Ret tt, s') /\
       main_loop World onestep samples o r s = (Exit 1, s')).
Proof.
  split.
  - revert o r s. induction samples as [|em rest IH]; intros o r s Hall.
    + exists s. reflexivity.
    + inversion Hall as [|? ? Hv Hrest]; subst.
      destruct (main_loop_body_validated em o r s Hv) as (s1 & Hb & _).
      cbn [main_loop]. unfold bind. rewrite Hb. apply IH. exact Hrest.
  - intros before em after -> Hall Hbad. revert o r s.
    induction before as [|b before IH]; intros o r s.
    + exists s. split; [reflexivity|]. cbn [app main_loop].
      unfold bind.
      destruct (out_of_range_exits World onestep em o r s
                  (not_validated em Hbad)) as [Hexit _].
      rewrite Hexit. reflexivity.
    + inversion Hall as [|? ? Hv Hrest]; subst.
      destruct (main_loop_body_validated b o r s Hv) as (s1 & Hb & _).
      cbn [app main_loop]. unfold bind. rewrite Hb. apply IH. exact Hrest.
Qed.

(** What the commands of the loop add up to on each motor. *)
Lemma main_loop_moves (samples : list EarthModel) (o r : Z) (s : St) :
  Forall validated samples -> (0 <= r <= 200)%Z ->
  exists s' new k,
    main_loop World onestep samples o r s = (Ret tt, s') /\
    issued s' = issued s ++ new /\
    net_steps (steppers 0) new =
      (fst (last (map target_steps samples) (o, r)) - o)%Z /\
    net_steps (steppers 1) new =
      (snd (last (map target_steps samples) (o, r)) - r + 200 * k)%Z /\
    (0 <= k)%Z /\
    ~ In (steppers 1, BACKWARD) new.
Proof.
  revert o r s. induction samples as [|em rest IH]; intros o r s Hall Hr.
  - exists s, [], 0%Z. cbn. rewrite app_nil_r.
    repeat split; try lia; auto.
  - inversion Hall as [|? ? Hv Hrest]; subst.
    destruct (main_loop_body_validated em o r s Hv) as (s1 & Hb & Hi1).
    destruct (target_steps_range em Hv) as [_ Hr'].
    destruct (IH (fst (target_steps em)) (snd (target_steps em)) s1
                Hrest Hr') as (s' & new & k & Hrun & Hi & Hn0 & Hn1 & Hk & Hnb).
    cbn [main_loop]. unfold bind at 1. rewrite Hb.
    cbn [map]. rewrite last_cons_default.
    rewrite <- surjective_pairing in Hn0, Hn1.
    set (tgt := last (map target_steps rest) (target_steps em)) in *.
    set (o' := fst (target_steps em)) in *.
    set (r' := snd (target_steps em)) in *.
    set (turn := (if (r' - r <? 0)%Z then STEPS_PER_REV + (r' - r)
                  else r' - r)%Z) in *.
    exists s'.
    exists ((repeat (steppers 0,
                     if (0 <? o' - o)%Z then FORWARD else BACKWARD)
                    (Z.to_nat (Z.abs (o' - o)))
             ++ repeat (steppers 1, FORWARD) (Z.to_nat turn)) ++ new).
    exists (k + (if (r' - r <? 0)%Z then 1 else 0))%Z.
    split; [exact Hrun|]. split.
    { rewrite Hi, Hi1, <- !app_assoc. reflexivity. }
    assert (Hturn : (0 <= turn)%Z).
    { subst turn. unfold STEPS_PER_REV.
      destruct (Z.ltb_spec (r' - r) 0); lia. }
    rewrite !net_steps_app, !net_steps_repeat, Hn0, Hn1.
    cbn [steppers motor_eqb].
    split; [|split; [|split]].
    + destruct (Z.ltb_spec 0 (o' - o)); lia.
    + rewrite (Z2Nat.id turn) by exact Hturn. subst turn.
      unfold STEPS_PER_REV. destruct (Z.ltb_spec (r' - r) 0); lia.
    + destruct (Z.ltb_spec (r' - r) 0); lia.
    + intro Hin. apply in_app_or in Hin. destruct Hin as [Hin|Hin];
        [|exact (Hnb Hin)].
      apply in_app_or in Hin. destruct Hin as [Hin|Hin];
        apply repeat_spec in Hin; discriminate Hin.
Qed.

(** X11.  Over validated models, with the tracked rotation step in
    [0, 200], the commands that the loop of [main] issues move the orbit
    motor by exactly the difference between the last target step and the
    tracked step it started from, and the rotation motor by that difference
    plus a whole number k >= 0 of revolutions of 200 steps; no backward step
    is ever issued to the rotation motor. *)
Theorem main_loop_tracks (samples : list EarthModel) (o r : Z) (s : St) :
  Forall validated samples -> (0 <= r <= 200)%Z ->
  exists s' new k,
    main_loop World onestep samples o r s = (Ret tt, s') /\
    issued s' = issued s ++ new /\
    net_steps (steppers 0) new =
      (fst (last (map target_steps samples) (o, r)) - o)%Z /\
    net_steps (steppers 1) new =
      (snd (last (map target_steps samples) (o, r)) - r + 200 * k)%Z /\
    (0 <= k)%Z /\
    ~ In (steppers 1, BACKWARD) new.
Proof. apply main_loop_moves. Qed.

End LoopFacts.

Ltac all_validated :=
  repeat (constructor;
          [unfold validated; cbn [orbit_degrees rotation_degrees];
           repeat split; vm_compute; discriminate|]);
  try apply Forall_nil.

Lemma main_loop_exit_witness :
  Forall validated [mkEarthModel 9 (18 # 5)] /\
  ~ validated (mkEarthModel 200 10) /\
  exists s',
    main_loop unit Sample.stuck_onestep [mkEarthModel 9 (18 # 5)] 0 0
              (mkState tt []) = (Ret tt, s') /\
    main_loop unit Sample.stuck_onestep
              [mkEarthModel 9 (18 # 5); mkEarthModel 200 10;
               mkEarthModel 18 1] 0 0 (mkState tt []) = (Exit 1, s').
Proof.
  assert (Hv : Forall validated [mkEarthModel 9 (18 # 5)]) by all_validated.
  assert (Hbad : ~ validated (mkEarthModel 200 10)).
  { intros (_ & H & _). cbn in H. vm_compute in H. apply H. reflexivity. }
  split; [exact Hv|]. split; [exact Hbad|].
  destruct (main_loop_exit unit Sample.stuck_onestep
              [mkEarthModel 9 (18 # 5); mkEarthModel 200 10;
               mkEarthModel 18 1] 0 0 (mkState tt [])) as (_ & Hexit).
  exact (Hexit [mkEarthModel 9 (18 # 5)] (mkEarthModel 200 10)
               [mkEarthModel 18 1] eq_refl Hv Hbad).
Defined.

Lemma main_loop_tracks_witness :
  Forall validated [mkEarthModel 9 (18 # 5); mkEarthModel 18 1] /\
  (0 <= 199 <= 200)%Z /\
  exists s' new k,
    main_loop unit Sample.stuck_onestep
              [mkEarthModel 9 (18 # 5); mkEarthModel 18 1] 0 199
              (mkState tt []) = (Ret tt, s') /\
    issued s' = new /\
    net_steps stepper1 new = 10%Z /\
    net_steps stepper2 new = (0 - 199 + 200 * k)%Z.
Proof.
  assert (Hv : Forall validated [mkEarthModel 9 (18 # 5); mkEarthModel 18 1])
    by all_validated.
  assert (Hr : (0 <= 199 <= 200)%Z) by lia.
  split; [exact Hv|]. split; [exact Hr|].
  destruct (main_loop_tracks unit Sample.stuck_onestep _ 0 199
              (mkState tt []) Hv Hr)
    as (s' & new & k & Hrun & Hi & Hn0 & Hn1 & _).
  exists s', new, k. split; [exact Hrun|]. split; [exact Hi|].
  split; [exact Hn0|exact Hn1].
Defined.

Section ModelToController.

Variable season_event_times : Q -> Q -> list EventTime.
Variable rise_set_event_times : Q -> Q -> list EventTime.

(** X12.  Every model that [earth_model] returns passes both validators of
    the controller, so neither the first sample nor an iteration of the loop
    of [main] exits on it; its target steps lie in [0, 100] for the orbit
    axis and in [0, STEPS_PER_REV] for the rotation axis. *)
Theorem earth_model_accepted (t : Q) (em : EarthModel) :
  earth_model season_event_times rise_set_event_times t = Some em ->
  validated em /\
  (0 <= fst (target_steps em) <= 100)%Z /\
  (0 <= snd (target_steps em) <= STEPS_PER_REV)%Z /\
  forall (World : Type) (onestep : Motor -> Direction -> World -> World)
         (o r : Z) (s : State World),
    (exists s',
       main_loop_body World onestep em o r s = (Ret (target_steps em), s')) /\
    (exists s',
       main_position World onestep em s = (Ret (target_steps em), s')).
Proof.
  intro Hem.
  destruct (earth_model_some season_event_times rise_set_event_times t em Hem)
    as (o & r & _ & _ & Ho0 & Ho1 & Hr0 & Hr1 & Eo & Er).
  assert (Hrot : 0 <= rotation_degrees em /\ rotation_degrees em <= 360).
  { rewrite Er. destruct (Qltb (r - o) 0) eqn:E.
    - apply Qltb_lt in E. split; lra.
    - apply Qltb_ge in E. split; lra. }
  destruct Hrot as [Hrot0 Hrot1].
  assert (Hv : validated em).
  { unfold validated. rewrite Eo. repeat split; lra. }
  split; [exact Hv|].
  destruct (target_steps_range em Hv) as [Hto Htr].
  split; [exact Hto|]. split; [exact Htr|].
  intros World onestep o' r' s. split.
  - destruct (main_loop_body_validated World onestep em o' r' s Hv)
      as (s' & Hb & _).
    exists s'. exact Hb.
  - pose proof Hv as (Hv0 & Hv1 & Hv2 & Hv3).
    destruct (main_position_run World onestep em s Hv0 Hv1 Hv2 Hv3)
      as (s' & Hp & _).
    exists s'. rewrite (target_steps_floor em Hv). exact Hp.
Qed.

End ModelToController.

Lemma earth_model_accepted_witness :
  exists em s',
    earth_model Sample.season_event_times Sample.rise_set_event_times
                (302 # 3) = Some em /\
    validated em /\
    main_loop_body unit Sample.stuck_onestep em 0 0 (mkState tt [])
      = (Ret (target_steps em), s').
Proof.
  assert (Hem : earth_model Sample.season_event_times
                  Sample.rise_set_event_times (302 # 3)
                = Some (mkEarthModel (27180 # 270)
                          (271224668160 # 849346560)))
    by (vm_compute; reflexivity).
  destruct (earth_model_accepted Sample.season_event_times
              Sample.rise_set_event_times _ _ Hem)
    as (Hv & _ & _ & Hbody).
  destruct (Hbody unit Sample.stuck_onestep 0%Z 0%Z (mkState tt []))
    as ((s' & Hs') & _).
  eexists. exists s'. split; [exact Hem|]. split; [exact Hv|exact Hs'].
Defined.

Lemma repeat_on_motor (motor : Motor) (d : Direction) (n : nat) :
  Forall (fun c : Command => fst c = motor) (repeat (motor, d) n).
Proof.
  apply Forall_forall. intros c Hc. apply repeat_spec in Hc. subst c.
  reflexivity.
Qed.

Section ScanFacts.

Variable World : Type.
Variable onestep : Motor -> Direction -> World -> World.
Variable sensing : Sensor -> World -> bool * World.

Local Abbreviation St := (State World).

Lemma step_while_over_sensor_no_budget step_forward motor sensor max_steps
    (s : St) :
  (max_steps <= 0)%Z ->
  step_while_over_sensor World onestep sensing step_forward motor sensor
                         max_steps s = (Ret (false, 0%Z), s).
Proof.
  intro H. unfold step_while_over_sensor, loop_fuel.
  cbn [while_over_sensor_loop negb andb].
  replace (0 <? max_steps)%Z with false by (symmetry; apply Z.ltb_ge; lia).
  reflexivity.
Qed.

Lemma step_until_over_sensor_no_budget step_forward motor sensor max_steps
    (s : St) :
  (max_steps <= 0)%Z ->
  step_until_over_sensor World onestep sensing step_forward motor sensor
                         max_steps s = (Ret (false, 0%Z), s).
Proof.
  intro H. unfold step_until_over_sensor, loop_fuel.
  cbn [until_over_sensor_loop negb andb].
  replace (0 <? max_steps)%Z with false by (symmetry; apply Z.ltb_ge; lia).
  reflexivity.
Qed.

(** X13.  [scan] drives only the motor it is given, and never issues more
    than 2 * max_sensor_steps + max_scan_steps + max_sensor_steps / 2 step
    commands, whatever the sensor does and whether or not it succeeds. *)
Theorem scan_commands (forward : bool) (motor : Motor) (sensor : Sensor)
    (max_scan_steps max_sensor_steps : Z) (s : St) :
  (0 <= max_scan_steps)%Z -> (0 <= max_sensor_steps)%Z ->
  exists ok s' new,
    scan World onestep sensing forward motor sensor max_scan_steps
         max_sensor_steps s = (Ret ok, s') /\
    issued s' = issued s ++ new /\
    Forall (fun c : Command => fst c = motor) new /\
    (Z.of_nat (length new)
     <= 2 * max_sensor_steps + max_scan_steps + max_sensor_steps / 2)%Z.
Proof.
  intros Hscan Hsensor.
  pose proof (Z.div_pos max_sensor_steps 2 Hsensor eq_refl) as Hhalf.
  destruct (scan_phases World onestep sensing forward motor sensor
              max_scan_steps max_sensor_steps s Hscan Hsensor)
    as (f1 & n1 & s1 & _ & Hb1 & Hi1 & _ & Hf1 & Ht1).
  destruct f1.
  2:{ destruct (Hf1 eq_refl) as [_ Hrun]. eexists. exists s1. eexists.
      split; [exact Hrun|]. split; [exact Hi1|].
      split; [apply repeat_on_motor|]. rewrite repeat_length. lia. }
  destruct (Ht1 eq_refl) as (f2 & n2 & s2 & _ & Hb2 & Hi2 & _ & Hf2 & Ht2).
  destruct f2.
  2:{ destruct (Hf2 eq_refl) as [_ Hrun]. eexists. exists s2. eexists.
      split; [exact Hrun|]. split.
      { rewrite Hi2, Hi1, <- app_assoc. reflexivity. }
      split; [apply Forall_app; split; apply repeat_on_motor|].
      rewrite !length_app, !repeat_length. lia. }
  destruct (Ht2 eq_refl) as (f3 & n3 & s3 & _ & Hb3 & Hi3 & _ & Hf3 & Ht3).
  destruct f3.
  2:{ destruct (Hf3 eq_refl) as [_ Hrun]. eexists. exists s3. eexists.
      split; [exact Hrun|]. split.
      { rewrite Hi3, Hi2, Hi1, <- !app_assoc. reflexivity. }
      split.
      { apply Forall_app. split; [apply repeat_on_motor|].
        apply Forall_app. split; apply repeat_on_motor. }
      rewrite !length_app, !repeat_length. lia. }
  destruct (Ht3 eq_refl) as (s4 & Hrun & Hi4).
  assert (Hn3 : (0 <= n3 / 2 <= max_sensor_steps / 2)%Z).
  { split; [apply Z.div_pos; lia|apply Z.div_le_mono; lia]. }
  eexists. exists s4. eexists.
  split; [exact Hrun|]. split.
  { rewrite Hi4, Hi3, Hi2, Hi1, <- !app_assoc. reflexivity. }
  split.
  { apply Forall_app. split; [apply repeat_on_motor|].
    apply Forall_app. split; [apply repeat_on_motor|].
    apply Forall_app. split; apply repeat_on_motor. }
  rewrite !length_app, !repeat_length. lia.
Qed.

(** X14.  With no budget the sensor loops give up before they look at the
    sensor: for max_steps <= 0 both return (False, 0) and leave everything
    as it was, even when the sensor already reads what is searched for.
    Hence [scan] returns [False] whenever max_sensor_steps <= 0 (touching
    nothing) or max_scan_steps <= 0. *)
Theorem scan_without_budget (forward : bool) (motor : Motor)
    (sensor : Sensor) (max_scan_steps max_sensor_steps : Z) (s : St) :
  ((max_sensor_steps <= 0)%Z ->
   step_while_over_sensor World onestep sensing forward motor sensor
                          max_sensor_steps s = (Ret (false, 0%Z), s) /\
   step_until_over_sensor World onestep sensing forward motor sensor
                          max_sensor_steps s = (Ret (false, 0%Z), s) /\
   scan World onestep sensing forward motor sensor max_scan_steps
        max_sensor_steps s = (Ret false, s)) /\
  ((max_scan_steps <= 0)%Z ->
   exists s',
     scan World onestep sensing forward motor sensor max_scan_steps
          max_sensor_steps s = (Ret false, s')).
Proof.
  split.
  - intro H. split; [apply step_while_over_sensor_no_budget; exact H|].
    split; [apply step_until_over_sensor_no_budget; exact H|].
    unfold scan, bind.
    rewrite step_while_over_sensor_no_budget by exact H. reflexivity.
  - intro H. destruct (Z.le_gt_cases max_sensor_steps 0) as [Hs|Hs].
    + exists s. unfold scan, bind.
      rewrite step_while_over_sensor_no_budget by exact Hs. reflexivity.
    + destruct (step_while_over_sensor_run World onestep sensing
                  (negb forward) motor sensor max_sensor_steps s)
        as (f1 & n1 & s1 & Hr1 & _); [lia|].
      exists s1. unfold scan, bind. rewrite Hr1. cbn [fst snd].
      destruct f1; cbn [negb]; [|reflexivity].
      rewrite step_until_over_sensor_no_budget by exact H. reflexivity.
Qed.

End ScanFacts.

Lemma scan_commands_witness :
  (0 <= 100)%Z /\ (0 <= 50)%Z /\
  exists ok s' new,
    scan (Z * Z) Sample.axes_onestep Sample.axes_sensing false stepper1
         (SensorPin 27) 100 50 (mkState (0, 0)%Z []) = (Ret ok, s') /\
    issued s' = new /\
    Forall (fun c : Command => fst c = stepper1) new /\
    (Z.of_nat (length new) <= 225)%Z.
Proof.
  assert (H100 : (0 <= 100)%Z) by lia.
  assert (H50 : (0 <= 50)%Z) by lia.
  split; [exact H100|]. split; [exact H50|].
  destruct (scan_commands (Z * Z) Sample.axes_onestep Sample.axes_sensing
              false stepper1 (SensorPin 27) 100 50 (mkState (0, 0)%Z [])
              H100 H50) as (ok & s' & new & Hrun & Hi & Hall & Hlen).
  exists ok, s', new. split; [exact Hrun|]. split; [exact Hi|].
  split; [exact Hall|exact Hlen].
Defined.

Lemma scan_without_budget_witness :
  (0 <= 0)%Z /\
  scan (Z * Z) Sample.axes_onestep Sample.axes_sensing true stepper2
       (SensorPin 17) 200 0 (mkState (0, 0)%Z [])
    = (Ret false, mkState (0, 0)%Z []).
Proof.
  assert (H : (0 <= 0)%Z) by lia.
  split; [exact H|].
  destruct (scan_without_budget (Z * Z) Sample.axes_onestep
              Sample.axes_sensing true stepper2 (SensorPin 17) 200 0
              (mkState (0, 0)%Z [])) as (Hnone & _).
  destruct (Hnone H) as (_ & _ & Hscan). exact Hscan.
Defined.

Section MainFacts.

Variable World : Type.
Variable onestep : Motor -> Direction -> World -> World.
Variable sensing : Sensor -> World -> bool * World.

Local Abbreviation St := (State World).

(** X15.  When every model is within the validated ranges, [main] does not
    exit, and the commands it issues after the two calibration scans add up,
    on the orbit motor, to exactly the target step of the last model, and on
    the rotation motor to the target step of the last model plus a whole
    number k >= 0 of revolutions of 200 steps, with no backward step: counted
    from where calibration left them, the motors stand at the last target. *)
Theorem main_tracks (em : EarthModel) (rest : list EarthModel) (s : St) :
  Forall validated (em :: rest) ->
  exists ok1 s1 ok2 s2 s3 new k,
    scan World onestep sensing false (steppers 0) (sensors 0) 100 50 s
      = (Ret ok1, s1) /\
    scan World onestep sensing true (steppers 1) (sensors 1) 200 50 s1
      = (Ret ok2, s2) /\
    main World onestep sensing (em :: rest) s = (Ret tt, s3) /\
    issued s3 = issued s2 ++ new /\
    net_steps (steppers 0) new =
      fst (last (map target_steps rest) (target_steps em)) /\
    net_steps (steppers 1) new =
      (snd (last (map target_steps rest) (target_steps em)) + 200 * k)%Z /\
    (0 <= k)%Z /\
    ~ In (steppers 1, BACKWARD) new.
Proof.
  intro Hall. inversion Hall as [|? ? Hv Hrest]; subst.
  destruct (scan_returns World onestep sensing false (steppers 0) (sensors 0)
              100 50 s) as (ok1 & s1 & H1); [lia|lia|].
  destruct (scan_returns World onestep sensing true (steppers 1) (sensors 1)
              200 50 s1) as (ok2 & s2 & H2); [lia|lia|].
  pose proof Hv as (Ho0 & Ho1 & Hr0 & Hr1).
  destruct (main_position_run World onestep em s2 Ho0 Ho1 Hr0 Hr1)
    as (s3 & Hpos & Hi3).
  destruct (target_steps_range em Hv) as [Hto Htr].
  rewrite <- (target_steps_floor em Hv) in Hpos.
  rewrite (surjective_pairing (target_steps em)) in Hpos.
  pose proof (target_steps_floor em Hv) as Etgt.
  assert (Eo : Qfloor (orbit_degrees em / DEGREES_PER_STEP)
               = fst (target_steps em)) by (rewrite Etgt; reflexivity).
  assert (Er : Qfloor (rotation_degrees em / DEGREES_PER_STEP)
               = snd (target_steps em)) by (rewrite Etgt; reflexivity).
  rewrite Eo, Er in Hi3.
  destruct (main_loop_moves World onestep rest (fst (target_steps em))
              (snd (target_steps em)) s3 Hrest Htr)
    as (s4 & new & k & Hrun & Hi4 & Hn0 & Hn1 & Hk & Hnb).
  rewrite <- surjective_pairing in Hn0, Hn1.
  exists ok1, s1, ok2, s2, s4.
  exists ((repeat (steppers 0, FORWARD) (Z.to_nat (fst (target_steps em)))
           ++ repeat (steppers 1, FORWARD)
                     (Z.to_nat (snd (target_steps em)))) ++ new).
  exists k. split; [exact H1|]. split; [exact H2|]. split.
  { unfold main. rewrite (bind_ret World _ _ _ _ _ H1).
    rewrite (bind_ret World _ _ _ _ _ H2).
    rewrite (bind_ret World _ _ _ _ _ Hpos). exact Hrun. }
  split.
  { rewrite Hi4, Hi3, <- !app_assoc. reflexivity. }
  rewrite !net_steps_app, !net_steps_repeat, Hn0, Hn1.
  cbn [steppers motor_eqb].
  split; [lia|]. split; [lia|]. split; [exact Hk|].
  intro Hin. apply in_app_or in Hin. destruct Hin as [Hin|Hin];
    [|exact (Hnb Hin)].
  apply in_app_or in Hin. destruct Hin as [Hin|Hin];
    apply repeat_spec in Hin; discriminate Hin.
Qed.

End MainFacts.

Lemma main_tracks_witness :
  Forall validated [mkEarthModel 9 (18 # 5); mkEarthModel 18 1] /\
  exists s3 new k,
    main (Z * Z) Sample.axes_onestep Sample.axes_sensing
         [mkEarthModel 9 (18 # 5); mkEarthModel 18 1] (mkState (0, 0)%Z [])
      = (Ret tt, s3) /\
    net_steps stepper1 new = 10%Z /\
    net_steps stepper2 new = (0 + 200 * k)%Z.
Proof.
  assert (Hv : Forall validated [mkEarthModel 9 (18 # 5); mkEarthModel 18 1])
    by all_validated.
  split; [exact Hv|].
  destruct (main_tracks (Z * Z) Sample.axes_onestep Sample.axes_sensing
              (mkEarthModel 9 (18 # 5)) [mkEarthModel 18 1]
              (mkState (0, 0)%Z []) Hv)
    as (ok1 & s1 & ok2 & s2 & s3 & new & k & _ & _ & Hrun & _ & Hn0 & Hn1 & _).
  exists s3, new, k. split; [exact Hrun|]. split; [exact Hn0|exact Hn1].
Defined.
